(** * Spotify status: token manager and now-playing resolver

    A shallow embedding of the Spotify API module of the repository
    (the file that defines [getAccessToken], [fetchNowPlayingFromSpotify],
    [fetchRecentlyPlayed] and [getNowPlaying]) together with the properties
    of its caches.

    The module keeps three module-level variables ([tokenCache],
    [nowPlayingCache], [lastPlayedTrack]).  They are modelled as an explicit
    state that every operation threads; an exception leaves the assignments
    made before it in place, as in JavaScript.  The outside world (the clock
    behind [Date.now()] and the three HTTP endpoints) is an environment that
    gives, for every place of the code that consults it, the answer it gets
    during one call. *)

From Stdlib Require Import ZArith String List Bool Lia.
From ExtLib Require Import Structures.Monad Structures.MonadState Structures.MonadExc.
Import ListNotations.
Import MonadNotation.
Local Open Scope monad_scope.
Local Open Scope Z_scope.

Set Implicit Arguments.

(** ** Data model *)

(** [type SpotifyNowPlaying = { artist; isPlaying; title }]. *)
Record SpotifyNowPlaying : Type := mkNowPlaying {
  artist : string;
  isPlaying : bool;
  title : string
}.

(** The value of [getNowPlaying]: [SpotifyNowPlaying | false]. *)
Inductive NowPlayingResult : Type :=
| Unavailable                       (* the JavaScript value [false] *)
| Playing (p : SpotifyNowPlaying).

(** A JavaScript number that is either an integer or [NaN] ([None]). *)
Definition jsnum : Type := option Z.

(** [tokenCache]: [access_token] is [null]/[undefined] ([None]) or a string. *)
Record TokenCache : Type := mkTokenCache {
  access_token : option string;
  expires_at : jsnum
}.

(** [nowPlayingCache]: [payload] is [null] ([None]), [false] or a track. *)
Record NowPlayingCache : Type := mkNowPlayingCache {
  payload : option NowPlayingResult;
  np_expires_at : Z
}.

(** An outbound HTTP request, with the bearer token it carries. *)
Inductive Request : Type :=
| PostToken                                   (* POST accounts.spotify.com/api/token *)
| GetCurrentlyPlaying (bearer : option string) (* GET /v1/me/player/currently-playing *)
| GetRecentlyPlayed (bearer : option string).  (* GET /v1/me/player/recently-played?limit=1 *)

(** The module-level variables, and the log of the requests issued so far
    (newest first). *)
Record State : Type := mkState {
  tokenCache : TokenCache;
  nowPlayingCache : NowPlayingCache;
  lastPlayedTrack : option SpotifyNowPlaying;
  outbound : list Request
}.

(** The values the module-level variables are initialised with. *)
Definition initial : State :=
  {| tokenCache := {| access_token := None; expires_at := Some 0 |};
     nowPlayingCache := {| payload := None; np_expires_at := 0 |};
     lastPlayedTrack := None;
     outbound := [] |}.

(** ** The provider's JSON bodies *)

Record Artist : Type := mkArtist { artist_name : string }.

Record Track : Type := mkTrack {
  name : string;
  artists : list Artist
}.

(** Body of the currently-playing endpoint.  [item] is [None] when reading
    [song.item.artists] throws: [item] is [null] or missing, or the body is
    not an object at all (the JSON value [null], a number, a text).  In the
    same way the [artists] of a track are [[]] when [artists[0].name] throws:
    the list is empty or missing. *)
Record CurrentlyPlaying : Type := mkCurrentlyPlaying {
  item : option Track;
  is_playing : bool
}.

Record PlayHistory : Type := mkPlayHistory { track : Track }.

(** Body of the recently-played endpoint; [items] may be missing. *)
Record RecentlyPlayed : Type := mkRecentlyPlayed {
  items : option (list PlayHistory)
}.

(** Body of the token endpoint when it is a JSON value other than [null];
    an error body has neither field. *)
Record TokenData : Type := mkTokenData {
  data_access_token : option string;
  data_expires_in : jsnum
}.

(** A [Response]: its status, and the data that [response.json()] yields
    ([None]: it yields none; the body is not JSON and [json()] rejects, or,
    for the token endpoint, the body is [null], see [TokenEnv]). *)
Record Response (B : Type) : Type := mkResponse {
  status : Z;
  body : option B
}.

(** [response.ok]: the status is in the range 200-299. *)
Definition ok {B} (r : Response B) : bool :=
  (200 <=? status r) && (status r <=? 299).

(** What [await fetch(...)] does: reject (network failure) or resolve. *)
Inductive FetchResult (B : Type) : Type :=
| NetworkFailure
| Responded (r : Response B).
Arguments NetworkFailure {B}.

(** ** The environment of one call *)

(** What one call of [getAccessToken] sees: the clock at its validity test,
    the answer of the token endpoint, the clock when it stores the token.
    When the response holds no token data ([body] is [None]),
    [exchange_null] tells why: the body is the JSON value [null]
    ([response.json()] resolves and [data.access_token] throws), or it is
    not JSON ([response.json()] rejects). *)
Record TokenEnv : Type := mkTokenEnv {
  now_check : Z;
  exchange : FetchResult TokenData;
  exchange_null : bool;
  now_store : Z
}.

(** What one call of [getNowPlaying] sees.  Every [Date.now()] and every
    [fetch] of the function is evaluated at most once per call, so one answer
    per place is enough; [getAccessToken] is called from two places. *)
Record Env : Type := mkEnv {
  ttl_override : option Z;          (* process.env.SPOTIFY_NOW_PLAYING_CACHE_TTL *)
  now_cache_check : Z;              (* Date.now() of the freshness test *)
  token_for_live : TokenEnv;        (* getAccessToken in fetchNowPlayingFromSpotify *)
  live : FetchResult CurrentlyPlaying;
  token_for_recent : TokenEnv;      (* getAccessToken in fetchRecentlyPlayed *)
  recent : FetchResult RecentlyPlayed;
  now_cache_store : Z               (* Date.now() when nowPlayingCache is assigned *)
}.

Definition TOKEN_EXPIRY_BUFFER : Z := 60 * 1000.

(** [Number(process.env.SPOTIFY_NOW_PLAYING_CACHE_TTL ?? 10000)]. *)
Definition NOW_PLAYING_TTL (e : Env) : Z :=
  match ttl_override e with
  | Some n => n
  | None => 10000
  end.

(** ** Exceptions and the monad of the module *)

Inductive exn : Type :=
| FetchFailed     (* fetch rejected: the network failed *)
| SyntaxError     (* response.json() rejected: the body is not JSON *)
| TypeError.      (* a property of undefined or null was read *)

Inductive Outcome (A : Type) : Type :=
| Ok (a : A)
| Throw (x : exn).
Arguments Throw {A}.

(** A computation reads and writes the state and returns or throws; the
    state it leaves is kept in both cases. *)
Definition M (A : Type) : Type := State -> Outcome A * State.

#[global] Instance Monad_M : Monad M := {
  ret := fun _ a s => (Ok a, s);
  bind := fun _ _ c k s =>
    match c s with
    | (Ok a, s') => k a s'
    | (Throw x, s') => (Throw x, s')
    end
}.

#[global] Instance MonadState_M : MonadState State M := {
  get := fun s => (Ok s, s);
  put := fun s' _ => (Ok tt, s')
}.

#[global] Instance MonadExc_M : MonadExc exn M := {
  raise := fun _ x s => (Throw x, s);
  catch := fun _ c h s =>
    match c s with
    | (Ok a, s') => (Ok a, s')
    | (Throw x, s') => h x s'
    end
}.

(** Assignments to the module-level variables, as functions on the state
    and as computations. *)
Definition set_tokenCache (c : TokenCache) (s : State) : State :=
  {| tokenCache := c; nowPlayingCache := nowPlayingCache s;
     lastPlayedTrack := lastPlayedTrack s; outbound := outbound s |}.

Definition set_nowPlayingCache (c : NowPlayingCache) (s : State) : State :=
  {| tokenCache := tokenCache s; nowPlayingCache := c;
     lastPlayedTrack := lastPlayedTrack s; outbound := outbound s |}.

Definition set_lastPlayedTrack (t : SpotifyNowPlaying) (s : State) : State :=
  {| tokenCache := tokenCache s; nowPlayingCache := nowPlayingCache s;
     lastPlayedTrack := Some t; outbound := outbound s |}.

Definition log_request (rq : Request) (s : State) : State :=
  {| tokenCache := tokenCache s; nowPlayingCache := nowPlayingCache s;
     lastPlayedTrack := lastPlayedTrack s; outbound := rq :: outbound s |}.

Definition assign_tokenCache (c : TokenCache) : M unit :=
  s <- get ;; put (set_tokenCache c s).

Definition assign_nowPlayingCache (c : NowPlayingCache) : M unit :=
  s <- get ;; put (set_nowPlayingCache c s).

Definition assign_lastPlayedTrack (t : SpotifyNowPlaying) : M unit :=
  s <- get ;; put (set_lastPlayedTrack t s).

(** [await fetch(...)]: the request is logged, then the answer of the
    environment decides between a response and a rejection. *)
Definition fetch {B} (rq : Request) (answer : FetchResult B) : M (Response B) :=
  s <- get ;;
  put (log_request rq s) ;;
  match answer with
  | NetworkFailure => raise FetchFailed
  | Responded r => ret r
  end.

(** [await response.json()]. *)
Definition json {B} (r : Response B) : M B :=
  match body r with
  | Some b => ret b
  | None => raise SyntaxError
  end.

(** ** JavaScript truthiness and arithmetic on the values used *)

Definition truthy_string (v : option string) : bool :=
  match v with
  | Some EmptyString => false
  | Some _ => true
  | None => false
  end.

Definition truthy_number (v : jsnum) : bool :=
  match v with
  | Some n => negb (n =? 0)
  | None => false
  end.

(** [now < v], false when [v] is [NaN]. *)
Definition lt_number (now : Z) (v : jsnum) : bool :=
  match v with
  | Some n => now <? n
  | None => false
  end.

(** [now + expires_in * 1000 - TOKEN_EXPIRY_BUFFER]. *)
Definition token_expiry (now : Z) (expires_in : jsnum) : jsnum :=
  match expires_in with
  | Some n => Some (now + n * 1000 - TOKEN_EXPIRY_BUFFER)
  | None => None
  end.

(** The test of [getAccessToken]: a cached token that is still valid. *)
Definition token_valid (c : TokenCache) (now : Z) : bool :=
  truthy_string (access_token c) && truthy_number (expires_at c)
  && lt_number now (expires_at c).

(** ** Token manager *)

(** [const data = await response.json()] up to the first read of
    [data.access_token]: the data of the body, a [SyntaxError] from
    [response.json()] when the body is not JSON, a [TypeError] from
    [data.access_token] when [data] is [null].  Nothing is assigned between
    the two. *)
Definition exchange_data (te : TokenEnv) (response : Response TokenData)
  : M TokenData :=
  match body response with
  | Some data => ret data
  | None => if exchange_null te then raise TypeError else raise SyntaxError
  end.

Definition getAccessToken (te : TokenEnv) : M (option string) :=
  s <- get ;;
  if token_valid (tokenCache s) (now_check te) then
    ret (access_token (tokenCache s))
  else
    response <- fetch PostToken (exchange te) ;;
    data <- exchange_data te response ;;
    assign_tokenCache
      {| access_token := data_access_token data;
         expires_at := token_expiry (now_store te) (data_expires_in data) |} ;;
    ret (data_access_token data).

(** ** Now-playing resolver *)

Definition fetchNowPlayingFromSpotify (e : Env) : M (Response CurrentlyPlaying) :=
  access <- getAccessToken (token_for_live e) ;;
  fetch (GetCurrentlyPlaying access) (live e).

Definition fetchRecentlyPlayed (e : Env) : M (Response RecentlyPlayed) :=
  access <- getAccessToken (token_for_recent e) ;;
  fetch (GetRecentlyPlayed access) (recent e).

Record GetNowPlayingOptions : Type := mkOptions {
  forceRefresh : option bool
}.

(** [options?.forceRefresh ?? false]. *)
Definition force_of (options : option GetNowPlayingOptions) : bool :=
  match options with
  | Some o => match forceRefresh o with Some b => b | None => false end
  | None => false
  end.

(** [track.artists[0].name]: reading [name] of [undefined] throws. *)
Definition first_artist_name (t : Track) : M string :=
  match artists t with
  | a :: _ => ret (artist_name a)
  | [] => raise TypeError
  end.

(** [{ ...lastPlayedTrack, isPlaying: false }]. *)
Definition stale (t : SpotifyNowPlaying) : SpotifyNowPlaying :=
  {| artist := artist t; isPlaying := false; title := title t |}.

(** [nowPlayingCache = { payload, expires_at: Date.now() + NOW_PLAYING_TTL }]. *)
Definition cache_now_playing (e : Env) (v : NowPlayingResult) : M unit :=
  assign_nowPlayingCache
    {| payload := Some v; np_expires_at := now_cache_store e + NOW_PLAYING_TTL e |}.

(** The freshness test at the head of [getNowPlaying]: the cached payload
    when the test succeeds. *)
Definition cache_hit (force : bool) (e : Env) (c : NowPlayingCache)
  : option NowPlayingResult :=
  if negb force then
    match payload c with
    | Some v => if now_cache_check e <? np_expires_at c then Some v else None
    | None => None
    end
  else None.

(** The [try] block of the 204 branch.  [Some v]: the function returns [v]
    from inside the block; [None]: control falls out of the block. *)
Definition try_recently_played (e : Env) : M (option NowPlayingResult) :=
  recentlyPlayedResponse <- fetchRecentlyPlayed e ;;
  if ok recentlyPlayedResponse then
    recentlyPlayed <- json recentlyPlayedResponse ;;
    match items recentlyPlayed with
    | Some (first :: _) =>
        let lastTrack := track first in
        a <- first_artist_name lastTrack ;;
        let p := {| artist := a; isPlaying := false; title := name lastTrack |} in
        assign_lastPlayedTrack p ;;
        cache_now_playing e (Playing p) ;;
        ret (Some (Playing p))
    | _ => ret None
    end
  else ret None.

(** The [catch] block of the 204 branch. *)
Definition catch_recently_played (error : exn) : M (option NowPlayingResult) :=
  s <- get ;;
  match lastPlayedTrack s with
  | Some t => ret (Some (Playing (stale t)))
  | None => ret None
  end.

(** The code after the live response when its status is 204. *)
Definition nothing_playing (e : Env) : M NowPlayingResult :=
  returned <- catch (try_recently_played e) catch_recently_played ;;
  match returned with
  | Some v => ret v
  | None =>
      cache_now_playing e Unavailable ;;
      ret Unavailable
  end.

(** The code after the live response when its status exceeds 400. *)
Definition error_status (e : Env) : M NowPlayingResult :=
  s <- get ;;
  match lastPlayedTrack s with
  | Some t => ret (Playing (stale t))
  | None =>
      cache_now_playing e Unavailable ;;
      ret Unavailable
  end.

(** The code after the two status tests: the body is read as a track. *)
Definition parse_song (e : Env) (response : Response CurrentlyPlaying)
  : M NowPlayingResult :=
  song <- json response ;;
  match item song with
  | None => raise TypeError
  | Some it =>
      a <- first_artist_name it ;;
      let p := {| artist := a; isPlaying := is_playing song; title := name it |} in
      assign_lastPlayedTrack p ;;
      cache_now_playing e (Playing p) ;;
      ret (Playing p)
  end.

Definition getNowPlaying (e : Env) (options : option GetNowPlayingOptions)
  : M NowPlayingResult :=
  s <- get ;;
  match cache_hit (force_of options) e (nowPlayingCache s) with
  | Some v => ret v
  | None =>
      response <- fetchNowPlayingFromSpotify e ;;
      if status response =? 204 then nothing_playing e
      else if status response >? 400 then error_status e
      else parse_song e response
  end.

Definition getNowPlayingItem (e : Env) (options : option GetNowPlayingOptions)
  : M NowPlayingResult :=
  getNowPlaying e options.

(** ** States the module can be in *)

(** The states reached from the initial one by calls of [getNowPlaying],
    each in an environment of its own; a call that throws also leaves a
    reachable state. *)
Inductive reachable : State -> Prop :=
| reachable_initial : reachable initial
| reachable_call e options s r s' :
    reachable s ->
    getNowPlaying e options s = (r, s') ->
    reachable s'.


(** The live endpoint of [e] answers outside the 204 and the above-400
    branches with a body that holds the track [p]. *)
Definition live_track (e : Env) (p : SpotifyNowPlaying) : Prop :=
  exists r song it a rest,
    live e = Responded r /\ status r <> 204 /\ status r <= 400 /\
    body r = Some song /\ item song = Some it /\ artists it = a :: rest /\
    p = {| artist := artist_name a; isPlaying := is_playing song; title := name it |}.

(** The live endpoint of [e] answers 204 and its recently-played endpoint
    answers with a first item that holds the track [p]. *)
Definition recent_track (e : Env) (p : SpotifyNowPlaying) : Prop :=
  exists r rr rp first rest a more,
    live e = Responded r /\ status r = 204 /\
    recent e = Responded rr /\ ok rr = true /\ body rr = Some rp /\
    items rp = Some (first :: rest) /\ artists (track first) = a :: more /\
    p = {| artist := artist_name a; isPlaying := false;
           title := name (track first) |}.

(** The call of [getNowPlaying] in environment [e] from state [s] resolves
    the track [p]: the cache does not answer, the live fetch returns a
    response, and [p] is the track of that response (success branch) or, the
    live status being 204, of the response that the recently-played fetch
    returns. *)
Definition resolves (e : Env) (options : option GetNowPlayingOptions)
  (s : State) (p : SpotifyNowPlaying) : Prop :=
  cache_hit (force_of options) e (nowPlayingCache s) = None /\
  exists r s1,
    fetchNowPlayingFromSpotify e s = (Ok r, s1) /\
    (live_track e p \/
     (recent_track e p /\
      exists rr s2, fetchRecentlyPlayed e s1 = (Ok rr, s2))).

(** [last_resolved s q]: [s] is reached from the initial state by a
    sequence of calls, and [q] is the track resolved by the last call of
    that sequence that resolved one ([None] when no call did). *)
Inductive last_resolved : State -> option SpotifyNowPlaying -> Prop :=
| last_resolved_initial : last_resolved initial None
| last_resolved_new e options s q o s' p :
    last_resolved s q ->
    getNowPlaying e options s = (o, s') ->
    resolves e options s p ->
    last_resolved s' (Some p)
| last_resolved_kept e options s q o s' :
    last_resolved s q ->
    getNowPlaying e options s = (o, s') ->
    (forall p, ~ resolves e options s p) ->
    last_resolved s' q.

(** ** Sample data *)

Definition track_A_by_B : Track :=
  {| name := "A"; artists := [ {| artist_name := "B" |} ] |}.

Definition track_without_artist : Track :=
  {| name := "A"; artists := [] |}.

Definition token_reply : FetchResult TokenData :=
  Responded {| status := 200;
               body := Some {| data_access_token := Some "BQD"%string;
                               data_expires_in := Some 3600 |} |}.

Definition token_env_at (t : Z) : TokenEnv :=
  {| now_check := t; exchange := token_reply; exchange_null := false;
     now_store := t |}.

(** A call at time [t] (milliseconds) with the default TTL. *)
Definition env_at (t : Z) (l : FetchResult CurrentlyPlaying)
  (r : FetchResult RecentlyPlayed) : Env :=
  {| ttl_override := None;
     now_cache_check := t;
     token_for_live := token_env_at t;
     live := l;
     token_for_recent := token_env_at t;
     recent := r;
     now_cache_store := t |}.

Definition live_playing : FetchResult CurrentlyPlaying :=
  Responded {| status := 200;
               body := Some {| item := Some track_A_by_B; is_playing := true |} |}.

Definition live_without_artist : FetchResult CurrentlyPlaying :=
  Responded {| status := 200;
               body := Some {| item := Some track_without_artist;
                               is_playing := true |} |}.


Definition live_nothing : FetchResult CurrentlyPlaying :=
  Responded {| status := 204; body := None |}.

Definition live_server_error : FetchResult CurrentlyPlaying :=
  Responded {| status := 500; body := None |}.

Definition recent_one : FetchResult RecentlyPlayed :=
  Responded {| status := 200;
               body := Some {| items := Some [ {| track := track_A_by_B |} ] |} |}.

Definition recent_none : FetchResult RecentlyPlayed :=
  Responded {| status := 200; body := Some {| items := Some [] |} |}.

Definition A_by_B (playing : bool) : SpotifyNowPlaying :=
  {| artist := "B"; isPlaying := playing; title := "A" |}.

Definition t0 : Z := 1700000000000.

(** The state after a first call, at [t0], that finds track A playing. *)
Definition after_playing : State :=
  snd (getNowPlaying (env_at t0 live_playing recent_none) None initial).

(** ** The route handler

    [app/api/spotify/now-playing/route.ts]: the [GET] and [OPTIONS]
    handlers in front of [getNowPlayingItem]. *)

Definition corsHeaders : list (string * string) :=
  [ ("Access-Control-Allow-Origin", "*");
    ("Access-Control-Allow-Methods", "GET, OPTIONS");
    ("Access-Control-Allow-Headers", "Content-Type") ]%string.

(** The JSON body of a [GET] answer: the value of the resolver, or
    [{ error: `Failed to fetch ${error}` }] (the text after the fixed prefix
    is that of the exception, which is what the body keeps here). *)
Inductive RouteBody : Type :=
| DataBody (data : NowPlayingResult)
| ErrorBody (error : exn).

(** What [NextResponse.json(body, { status, headers })] builds. *)
Record RouteResponse (B : Type) : Type := mkRouteResponse {
  route_status : Z;
  route_headers : list (string * string);
  route_body : B
}.

(** [searchParams.get(key)]: the first value given for [key], or [null]. *)
Definition searchParams_get (key : string) (query : list (string * string))
  : option string :=
  match find (fun kv => String.eqb (fst kv) key) query with
  | Some kv => Some (snd kv)
  | None => None
  end.

(** [v === "true"]. *)
Definition is_true_text (v : option string) : bool :=
  match v with
  | Some t => String.eqb t "true"
  | None => false
  end.

(** The [forceRefresh] flag that [GET] reads from the query string. *)
Definition query_force (query : list (string * string)) : bool :=
  is_true_text (searchParams_get "refresh" query)
  || is_true_text (searchParams_get "forceRefresh" query).

Definition GET (e : Env) (query : list (string * string)) (s : State)
  : RouteResponse RouteBody * State :=
  let forceRefresh := query_force query in
  match getNowPlayingItem e (Some {| forceRefresh := Some forceRefresh |}) s with
  | (Ok data, s') =>
      ({| route_status := 200; route_headers := corsHeaders;
          route_body := DataBody data |}, s')
  | (Throw error, s') =>
      ({| route_status := 500; route_headers := corsHeaders;
          route_body := ErrorBody error |}, s')
  end.

(** [OPTIONS] answers the empty object [{}]. *)
Definition OPTIONS : RouteResponse unit :=
  {| route_status := 200; route_headers := corsHeaders; route_body := tt |}.

(** The answer as the browser's [fetch] sees it. *)
Definition delivered (r : RouteResponse RouteBody) : FetchResult RouteBody :=
  Responded {| status := route_status r; body := Some (route_body r) |}.

(** ** The status component

    [components/SpotifyStatus/SpotifyStatus.tsx]: the two pieces of React
    state that the polling effect sets, what is rendered from them, and the
    measurement that decides the marquee. *)

Record UiState : Type := mkUiState {
  offline : bool;
  result : SpotifyNowPlaying
}.

(** [useState(!initialData)] and
    [useState(initialData || { artist: "", isPlaying: false, title: "" })]. *)
Definition initial_ui (initialData : NowPlayingResult) : UiState :=
  match initialData with
  | Unavailable =>
      {| offline := true;
         result := {| artist := EmptyString; isPlaying := false;
                      title := EmptyString |} |}
  | Playing p => {| offline := false; result := p |}
  end.

(** The body of the interval callback, given what the request to the route
    did.  [!data] holds for [false]; [data.error] is a non-empty string in an
    error body and [undefined] in a track. *)
Definition on_poll (answer : FetchResult RouteBody) (u : UiState) : UiState :=
  match answer with
  | NetworkFailure => {| offline := true; result := result u |}
  | Responded response =>
      match body response with
      | None => {| offline := true; result := result u |}
      | Some (DataBody Unavailable) => {| offline := true; result := result u |}
      | Some (ErrorBody _) => {| offline := true; result := result u |}
      | Some (DataBody (Playing data)) => {| offline := false; result := data |}
      end
  end.

(** Truthiness of a string: it is not empty. *)
Definition nonempty (t : string) : bool :=
  match t with
  | EmptyString => false
  | String _ _ => true
  end.

Definition not_listening : string :=
  "Sorry, not listening to Spotify right now. Check again later.".

Definition scrollingText (u : UiState) : string :=
  if negb (offline u) && nonempty (title (result u)) && nonempty (artist (result u))
  then
    if isPlaying (result u)
    then (title (result u) ++ " by " ++ artist (result u))%string
    else ("Paused: " ++ title (result u) ++ " by " ++ artist (result u))%string
  else not_listening.

(** The [color] given to the logo. *)
Definition logo_color (u : UiState) : string :=
  if negb (offline u) && isPlaying (result u) then "#25d865"%string
  else "#a3a3a3"%string.

(** The marquee: the [shouldScroll] state and the horizontal translation
    (in pixels) written to the style of the text. *)
Record Marquee : Type := mkMarquee {
  shouldScroll : bool;
  translateX : Z
}.

(** [updateScrollBehavior]: [textRef] and [containerRef] are [None] when the
    ref is not attached, else the [scrollWidth] of the text and the
    [clientWidth] of the container. *)
Definition updateScrollBehavior (textRef containerRef : option Z) (m : Marquee)
  : Marquee :=
  match textRef, containerRef with
  | Some textWidth, Some containerWidth =>
      let isOverflowing := textWidth >? containerWidth in
      {| shouldScroll := isOverflowing;
         translateX := if isOverflowing
                       then - (textWidth - containerWidth) - 15
                       else 0 |}
  | _, _ => m
  end.

(** One polling round trip: the component requests the route without a
    query string, the route runs in the server state [s], and the callback
    handles the answer. *)
Definition poll_round (e : Env) (s : State) (u : UiState) : State * UiState :=
  let (response, s') := GET e [] s in
  (s', on_poll (delivered response) u).

(** ** Vocabulary of the further properties *)

(** A call left [nowPlayingCache] and [lastPlayedTrack] as they were. *)
Definition same_stores (s s' : State) : Prop :=
  nowPlayingCache s' = nowPlayingCache s /\
  lastPlayedTrack s' = lastPlayedTrack s.

Definition is_token_request (rq : Request) : bool :=
  match rq with PostToken => true | _ => false end.

Definition is_live_request (rq : Request) : bool :=
  match rq with GetCurrentlyPlaying _ => true | _ => false end.

Definition is_recent_request (rq : Request) : bool :=
  match rq with GetRecentlyPlayed _ => true | _ => false end.

(** A token endpoint whose tokens last [n] seconds. *)
Definition token_env_lasting (n t : Z) : TokenEnv :=
  {| now_check := t;
     exchange := Responded
       {| status := 200;
          body := Some {| data_access_token := Some "BQD"%string;
                          data_expires_in := Some n |} |};
     exchange_null := false;
     now_store := t |}.

(** A call at [t] where nothing plays, nothing was played, and the tokens
    handed out last 30 seconds. *)
Definition env_short_tokens (t : Z) : Env :=
  {| ttl_override := None;
     now_cache_check := t;
     token_for_live := token_env_lasting 30 t;
     live := live_nothing;
     token_for_recent := token_env_lasting 30 t;
     recent := recent_none;
     now_cache_store := t |}.

(** A token endpoint that cannot be reached. *)
Definition token_env_down (t : Z) : TokenEnv :=
  {| now_check := t; exchange := NetworkFailure; exchange_null := false;
     now_store := t |}.

(** A token endpoint that answers with the JSON value [null]. *)
Definition token_env_null (t : Z) : TokenEnv :=
  {| now_check := t;
     exchange := Responded {| status := 200; body := None |};
     exchange_null := true;
     now_store := t |}.

(** A token endpoint that answers with an error body. *)
Definition token_env_rejecting (t : Z) : TokenEnv :=
  {| now_check := t;
     exchange := Responded
       {| status := 400;
          body := Some {| data_access_token := None;
                          data_expires_in := None |} |};
     exchange_null := false;
     now_store := t |}.

Definition live_paused : FetchResult CurrentlyPlaying :=
  Responded {| status := 200;
               body := Some {| item := Some track_A_by_B; is_playing := false |} |}.

Definition blank_ui : UiState := initial_ui Unavailable.

(** The options that [GET] passes on when the query string is empty, as
    in the request of the polling component. *)
Definition poll_options : option GetNowPlayingOptions :=
  Some {| forceRefresh := Some false |}.

(** ** Running computations *)

Unset Implicit Arguments.

Lemma run_bind_ok {A B} (c : M A) (k : A -> M B) s a s' :
  c s = (Ok a, s') -> bind c k s = k a s'.
Proof. intros H. cbn. now rewrite H. Qed.

Lemma run_bind_throw {A B} (c : M A) (k : A -> M B) s x s' :
  c s = (Throw x, s') -> bind c k s = (Throw x, s').
Proof. intros H. cbn. now rewrite H. Qed.

Lemma cache_hit_inv force e c v :
  cache_hit force e c = Some v ->
  force = false /\ payload c = Some v /\ now_cache_check e < np_expires_at c.
Proof.
  unfold cache_hit. destruct force; cbn; [discriminate|].
  destruct (payload c) as [w|]; [|discriminate].
  destruct (Z.ltb_spec (now_cache_check e) (np_expires_at c)); [|discriminate].
  intros [= ->]. auto.
Qed.

Lemma cache_hit_intro e c v :
  payload c = Some v -> now_cache_check e < np_expires_at c ->
  cache_hit false e c = Some v.
Proof.
  intros Hp Hlt. unfold cache_hit. cbn. rewrite Hp.
  apply Z.ltb_lt in Hlt. now rewrite Hlt.
Qed.


Lemma cache_hit_forced e c : cache_hit true e c = None.
Proof. reflexivity. Qed.

(** *** What the token manager and [fetch] leave untouched *)

Lemma getAccessToken_frame te s o s' :
  getAccessToken te s = (o, s') ->
  nowPlayingCache s' = nowPlayingCache s /\
  lastPlayedTrack s' = lastPlayedTrack s.
Proof.
  unfold getAccessToken. cbn.
  destruct (token_valid _ _).
  - intros [= <- <-]. auto.
  - destruct (exchange te) as [|r]; cbn.
    + intros [= <- <-]. auto.
    + unfold exchange_data. destruct (body r); cbn;
        [|destruct (exchange_null te); cbn]; intros [= <- <-]; auto.
Qed.

Lemma fetch_frame {B} rq (answer : FetchResult B) s o s' :
  fetch rq answer s = (o, s') ->
  nowPlayingCache s' = nowPlayingCache s /\
  lastPlayedTrack s' = lastPlayedTrack s /\
  tokenCache s' = tokenCache s.
Proof.
  unfold fetch. cbn. destruct answer; cbn; intros [= <- <-]; auto.
Qed.

Lemma fetch_ok_inv {B} rq (answer : FetchResult B) s r s' :
  fetch rq answer s = (Ok r, s') -> answer = Responded r.
Proof.
  unfold fetch. cbn. destruct answer; cbn; [discriminate|].
  now intros [= -> _].
Qed.

Lemma token_then_fetch_frame {B} te (rq : option string -> Request)
    (answer : FetchResult B) s o s' :
  (access <- getAccessToken te ;; fetch (rq access) answer) s = (o, s') ->
  nowPlayingCache s' = nowPlayingCache s /\
  lastPlayedTrack s' = lastPlayedTrack s.
Proof.
  cbn -[getAccessToken fetch].
  destruct (getAccessToken te s) as [[tok|x] s1] eqn:Ht;
    destruct (getAccessToken_frame _ _ _ _ Ht) as [Hc Hl].
  - intros Hf. destruct (fetch_frame _ _ _ _ _ Hf) as (Hc' & Hl' & _).
    split; congruence.
  - intros [= <- <-]. auto.
Qed.

Lemma token_then_fetch_ok_inv {B} te (rq : option string -> Request)
    (answer : FetchResult B) s r s' :
  (access <- getAccessToken te ;; fetch (rq access) answer) s = (Ok r, s') ->
  answer = Responded r.
Proof.
  cbn -[getAccessToken fetch].
  destruct (getAccessToken te s) as [[tok|x] s1]; [|discriminate].
  apply fetch_ok_inv.
Qed.

Lemma fetchNowPlayingFromSpotify_frame e s o s' :
  fetchNowPlayingFromSpotify e s = (o, s') ->
  nowPlayingCache s' = nowPlayingCache s /\
  lastPlayedTrack s' = lastPlayedTrack s.
Proof. apply token_then_fetch_frame. Qed.

Lemma fetchRecentlyPlayed_frame e s o s' :
  fetchRecentlyPlayed e s = (o, s') ->
  nowPlayingCache s' = nowPlayingCache s /\
  lastPlayedTrack s' = lastPlayedTrack s.
Proof. apply token_then_fetch_frame. Qed.

Lemma fetchNowPlayingFromSpotify_ok_inv e s r s' :
  fetchNowPlayingFromSpotify e s = (Ok r, s') -> live e = Responded r.
Proof. apply token_then_fetch_ok_inv. Qed.

Lemma fetchRecentlyPlayed_ok_inv e s r s' :
  fetchRecentlyPlayed e s = (Ok r, s') -> recent e = Responded r.
Proof. apply token_then_fetch_ok_inv. Qed.

(** A failed live fetch throws whatever the token manager did before. *)
Lemma fetchNowPlayingFromSpotify_down e s :
  live e = NetworkFailure ->
  exists x s', fetchNowPlayingFromSpotify e s = (Throw x, s').
Proof.
  intros Hl. unfold fetchNowPlayingFromSpotify. cbn -[getAccessToken].
  destruct (getAccessToken (token_for_live e) s) as [[tok|x] s1].
  - rewrite Hl. cbn. eauto.
  - eauto.
Qed.


(** *** The branches of [getNowPlaying] *)

Lemma getNowPlaying_hit e options s v :
  cache_hit (force_of options) e (nowPlayingCache s) = Some v ->
  getNowPlaying e options s = (Ok v, s).
Proof. intros H. unfold getNowPlaying. cbn. now rewrite H. Qed.

Lemma getNowPlaying_miss e options s :
  cache_hit (force_of options) e (nowPlayingCache s) = None ->
  getNowPlaying e options s =
  bind (fetchNowPlayingFromSpotify e)
       (fun response =>
          if status response =? 204 then nothing_playing e
          else if status response >? 400 then error_status e
          else parse_song e response) s.
Proof. intros H. unfold getNowPlaying. cbn. now rewrite H. Qed.

Lemma getNowPlaying_live_throws e options s x s1 :
  cache_hit (force_of options) e (nowPlayingCache s) = None ->
  fetchNowPlayingFromSpotify e s = (Throw x, s1) ->
  getNowPlaying e options s = (Throw x, s1).
Proof.
  intros Hm Hf. rewrite (getNowPlaying_miss _ _ _ Hm).
  now apply run_bind_throw.
Qed.

Lemma getNowPlaying_204 e options s r s1 :
  cache_hit (force_of options) e (nowPlayingCache s) = None ->
  fetchNowPlayingFromSpotify e s = (Ok r, s1) ->
  status r = 204 ->
  getNowPlaying e options s = nothing_playing e s1.
Proof.
  intros Hm Hf Hs. rewrite (getNowPlaying_miss _ _ _ Hm).
  rewrite (run_bind_ok _ _ _ _ _ Hf), Hs. reflexivity.
Qed.

Lemma getNowPlaying_error e options s r s1 :
  cache_hit (force_of options) e (nowPlayingCache s) = None ->
  fetchNowPlayingFromSpotify e s = (Ok r, s1) ->
  status r > 400 ->
  getNowPlaying e options s = error_status e s1.
Proof.
  intros Hm Hf Hs. rewrite (getNowPlaying_miss _ _ _ Hm).
  rewrite (run_bind_ok _ _ _ _ _ Hf).
  destruct (Z.eqb_spec (status r) 204); [lia|].
  destruct (Z.gtb_spec (status r) 400); [reflexivity|lia].
Qed.

Lemma getNowPlaying_parse e options s r s1 :
  cache_hit (force_of options) e (nowPlayingCache s) = None ->
  fetchNowPlayingFromSpotify e s = (Ok r, s1) ->
  status r <> 204 -> status r <= 400 ->
  getNowPlaying e options s = parse_song e r s1.
Proof.
  intros Hm Hf Hs Hle. rewrite (getNowPlaying_miss _ _ _ Hm).
  rewrite (run_bind_ok _ _ _ _ _ Hf).
  destruct (Z.eqb_spec (status r) 204); [contradiction|].
  destruct (Z.gtb_spec (status r) 400); [lia|reflexivity].
Qed.

(** The state after a track [p] was resolved and stored. *)
Lemma parse_song_track e r s song it a rest :
  body r = Some song -> item song = Some it -> artists it = a :: rest ->
  parse_song e r s =
  (Ok (Playing {| artist := artist_name a; isPlaying := is_playing song;
                  title := name it |}),
   set_nowPlayingCache
     {| payload := Some (Playing {| artist := artist_name a;
                                    isPlaying := is_playing song;
                                    title := name it |});
        np_expires_at := now_cache_store e + NOW_PLAYING_TTL e |}
     (set_lastPlayedTrack
        {| artist := artist_name a; isPlaying := is_playing song;
           title := name it |} s)).
Proof.
  intros Hb Hi Ha. unfold parse_song, json, first_artist_name.
  rewrite Hb. cbn. rewrite Hi, Ha. reflexivity.
Qed.

(** Every other body makes [parse_song] throw and assign nothing. *)
Lemma parse_song_cases e r s :
  (exists song it a rest,
     body r = Some song /\ item song = Some it /\ artists it = a :: rest) \/
  (exists x, parse_song e r s = (Throw x, s)).
Proof.
  unfold parse_song, json, first_artist_name.
  destruct (body r) as [song|]; cbn; [|right; eauto].
  destruct (item song) as [it|] eqn:Hi; cbn; [|right; eauto].
  destruct (artists it) as [|a rest] eqn:Ha; cbn; [right; eauto|].
  left. exists song, it, a, rest. auto.
Qed.

Lemma nothing_playing_track e s rr s2 rp first rest a more :
  fetchRecentlyPlayed e s = (Ok rr, s2) ->
  ok rr = true -> body rr = Some rp ->
  items rp = Some (first :: rest) -> artists (track first) = a :: more ->
  nothing_playing e s =
  (Ok (Playing {| artist := artist_name a; isPlaying := false;
                  title := name (track first) |}),
   set_nowPlayingCache
     {| payload := Some (Playing {| artist := artist_name a;
                                    isPlaying := false;
                                    title := name (track first) |});
        np_expires_at := now_cache_store e + NOW_PLAYING_TTL e |}
     (set_lastPlayedTrack
        {| artist := artist_name a; isPlaying := false;
           title := name (track first) |} s2)).
Proof.
  intros Hf Hok Hb Hi Ha.
  unfold nothing_playing, try_recently_played, json, first_artist_name.
  cbn -[fetchRecentlyPlayed]. rewrite Hf, Hok, Hb. cbn. rewrite Hi, Ha.
  reflexivity.
Qed.

(** The recently-played request throws: the [catch] block decides. *)
Lemma nothing_playing_throws e s x s2 :
  fetchRecentlyPlayed e s = (Throw x, s2) ->
  nothing_playing e s =
  match lastPlayedTrack s2 with
  | Some t => (Ok (Playing (stale t)), s2)
  | None =>
      (Ok Unavailable,
       set_nowPlayingCache
         {| payload := Some Unavailable;
            np_expires_at := now_cache_store e + NOW_PLAYING_TTL e |} s2)
  end.
Proof.
  intros Hf. unfold nothing_playing, try_recently_played.
  cbn -[fetchRecentlyPlayed]. rewrite Hf. cbn.
  destruct (lastPlayedTrack s2); reflexivity.
Qed.

(** The recently-played request answers with no item: control leaves the
    [try] block without an exception, and the [catch] block is skipped. *)
Lemma nothing_playing_empty e s rr s2 rp :
  fetchRecentlyPlayed e s = (Ok rr, s2) ->
  ok rr = true -> body rr = Some rp -> items rp = Some [] ->
  nothing_playing e s =
  (Ok Unavailable,
   set_nowPlayingCache
     {| payload := Some Unavailable;
        np_expires_at := now_cache_store e + NOW_PLAYING_TTL e |} s2).
Proof.
  intros Hf Hok Hb Hi. unfold nothing_playing, try_recently_played, json.
  cbn -[fetchRecentlyPlayed]. rewrite Hf, Hok, Hb. cbn. rewrite Hi.
  reflexivity.
Qed.

Lemma error_status_run e s :
  error_status e s =
  match lastPlayedTrack s with
  | Some t => (Ok (Playing (stale t)), s)
  | None =>
      (Ok Unavailable,
       set_nowPlayingCache
         {| payload := Some Unavailable;
            np_expires_at := now_cache_store e + NOW_PLAYING_TTL e |} s)
  end.
Proof. unfold error_status. cbn. destruct (lastPlayedTrack s); reflexivity. Qed.

(** ** Properties of the resolver *)

(** C4: without [forceRefresh], a populated cache whose expiry is still
    ahead answers the call: the cached value (a track or the unavailable
    value) is returned, no request is issued and the token cache, the
    now-playing cache and the last played track are left as they were. *)
Theorem fresh_cache_answers_without_network e options s v :
  force_of options = false ->
  payload (nowPlayingCache s) = Some v ->
  now_cache_check e < np_expires_at (nowPlayingCache s) ->
  getNowPlaying e options s = (Ok v, s).
Proof.
  intros Hf Hp Hlt. apply getNowPlaying_hit.
  rewrite Hf. now apply cache_hit_intro.
Qed.

Lemma fresh_cache_answers_without_network_witness :
  force_of None = false /\
  payload (nowPlayingCache after_playing) = Some (Playing (A_by_B true)) /\
  t0 + 5000 < np_expires_at (nowPlayingCache after_playing) /\
  getNowPlaying (env_at (t0 + 5000) NetworkFailure NetworkFailure) None
    after_playing
  = (Ok (Playing (A_by_B true)), after_playing).
Proof.
  split; [reflexivity|]. split; [reflexivity|]. split; [reflexivity|].
  apply (fresh_cache_answers_without_network
           (env_at (t0 + 5000) NetworkFailure NetworkFailure) None
           after_playing (Playing (A_by_B true))); reflexivity.
Defined.

(** C3: when the live fetch answers 204 and the recently-played fetch
    succeeds with a first item whose track is [{name: A, artists: [{name: B}]}],
    the call returns [{title: A, artist: B, isPlaying: false}], and both
    [lastPlayedTrack] and [nowPlayingCache] hold that value afterwards, the
    cache with the expiry [Date.now() + NOW_PLAYING_TTL]. *)
Theorem recently_played_fallback_resolves e options s r s1 rr s2 A B rest :
  cache_hit (force_of options) e (nowPlayingCache s) = None ->
  fetchNowPlayingFromSpotify e s = (Ok r, s1) ->
  status r = 204 ->
  fetchRecentlyPlayed e s1 = (Ok rr, s2) ->
  ok rr = true ->
  body rr = Some {| items := Some ({| track := {| name := A;
                      artists := [ {| artist_name := B |} ] |} |} :: rest) |} ->
  getNowPlaying e options s =
  (Ok (Playing {| artist := B; isPlaying := false; title := A |}),
   {| tokenCache := tokenCache s2;
      nowPlayingCache :=
        {| payload := Some (Playing {| artist := B; isPlaying := false;
                                       title := A |});
           np_expires_at := now_cache_store e + NOW_PLAYING_TTL e |};
      lastPlayedTrack := Some {| artist := B; isPlaying := false; title := A |};
      outbound := outbound s2 |}).
Proof.
  intros Hm Hl Hs Hr Hok Hb.
  rewrite (getNowPlaying_204 _ _ _ _ _ Hm Hl Hs).
  rewrite (nothing_playing_track _ _ _ _ _ _ _ _ _ Hr Hok Hb eq_refl eq_refl).
  reflexivity.
Qed.

Lemma recently_played_fallback_resolves_witness :
  let e := env_at t0 live_nothing recent_one in
  cache_hit (force_of None) e (nowPlayingCache initial) = None /\
  fetchNowPlayingFromSpotify e initial
  = (Ok {| status := 204; body := None |},
     snd (fetchNowPlayingFromSpotify e initial)) /\
  fetchRecentlyPlayed e (snd (fetchNowPlayingFromSpotify e initial))
  = (Ok {| status := 200;
           body := Some {| items := Some [ {| track := track_A_by_B |} ] |} |},
     snd (fetchRecentlyPlayed e (snd (fetchNowPlayingFromSpotify e initial)))) /\
  fst (getNowPlaying e None initial) = Ok (Playing (A_by_B false)) /\
  lastPlayedTrack (snd (getNowPlaying e None initial)) = Some (A_by_B false) /\
  nowPlayingCache (snd (getNowPlaying e None initial))
  = {| payload := Some (Playing (A_by_B false)); np_expires_at := t0 + 10000 |}.
Proof.
  intros e.
  assert (Hm : cache_hit (force_of None) e (nowPlayingCache initial) = None)
    by reflexivity.
  assert (Hl : fetchNowPlayingFromSpotify e initial
               = (Ok {| status := 204; body := None |},
                  snd (fetchNowPlayingFromSpotify e initial)))
    by reflexivity.
  assert (Hr : fetchRecentlyPlayed e (snd (fetchNowPlayingFromSpotify e initial))
               = (Ok {| status := 200;
                        body := Some {| items := Some [ {| track := track_A_by_B |} ] |} |},
                  snd (fetchRecentlyPlayed e
                         (snd (fetchNowPlayingFromSpotify e initial)))))
    by reflexivity.
  split; [exact Hm|]. split; [exact Hl|]. split; [exact Hr|].
  rewrite (recently_played_fallback_resolves e None initial _ _ _ _ _ _ []
             Hm Hl eq_refl Hr eq_refl eq_refl).
  repeat split.
Defined.

(** C7: with no last played track, a call whose live fetch answers 204 and
    whose recently-played fetch succeeds with an empty item list returns the
    unavailable value and stores it in [nowPlayingCache] with the expiry
    [Date.now() + NOW_PLAYING_TTL]; every later call without [forceRefresh]
    made before that expiry returns the unavailable value from the cache. *)
Theorem cold_start_unavailable_is_cached e options s r s1 rr s2 :
  lastPlayedTrack s = None ->
  cache_hit (force_of options) e (nowPlayingCache s) = None ->
  fetchNowPlayingFromSpotify e s = (Ok r, s1) ->
  status r = 204 ->
  fetchRecentlyPlayed e s1 = (Ok rr, s2) ->
  ok rr = true ->
  body rr = Some {| items := Some [] |} ->
  exists s',
    getNowPlaying e options s = (Ok Unavailable, s') /\
    nowPlayingCache s' =
      {| payload := Some Unavailable;
         np_expires_at := now_cache_store e + NOW_PLAYING_TTL e |} /\
    lastPlayedTrack s' = None /\
    forall e' options',
      force_of options' = false ->
      now_cache_check e' < now_cache_store e + NOW_PLAYING_TTL e ->
      getNowPlaying e' options' s' = (Ok Unavailable, s').
Proof.
  intros Hn Hm Hl Hs Hr Hok Hb.
  rewrite (getNowPlaying_204 _ _ _ _ _ Hm Hl Hs).
  rewrite (nothing_playing_empty _ _ _ _ _ Hr Hok Hb eq_refl).
  eexists. split; [reflexivity|]. split; [reflexivity|]. split.
  - cbn. destruct (fetchRecentlyPlayed_frame _ _ _ _ Hr) as [_ ->].
    destruct (fetchNowPlayingFromSpotify_frame _ _ _ _ Hl) as [_ ->].
    exact Hn.
  - intros e' options' Hf Hlt.
    apply getNowPlaying_hit. rewrite Hf.
    apply cache_hit_intro; [reflexivity|exact Hlt].
Qed.

Lemma cold_start_unavailable_is_cached_witness :
  let e := env_at t0 live_nothing recent_none in
  let s1 := snd (fetchNowPlayingFromSpotify e initial) in
  let s2 := snd (fetchRecentlyPlayed e s1) in
  lastPlayedTrack initial = None /\
  cache_hit (force_of None) e (nowPlayingCache initial) = None /\
  fetchNowPlayingFromSpotify e initial
  = (Ok {| status := 204; body := None |}, s1) /\
  fetchRecentlyPlayed e s1
  = (Ok {| status := 200; body := Some {| items := Some [] |} |}, s2) /\
  exists s',
    getNowPlaying e None initial = (Ok Unavailable, s') /\
    nowPlayingCache s' =
      {| payload := Some Unavailable; np_expires_at := t0 + 10000 |} /\
    lastPlayedTrack s' = None /\
    forall e' options',
      force_of options' = false ->
      now_cache_check e' < t0 + 10000 ->
      getNowPlaying e' options' s' = (Ok Unavailable, s').
Proof.
  intros e s1 s2.
  split; [reflexivity|]. split; [reflexivity|].
  split; [reflexivity|]. split; [reflexivity|].
  apply (cold_start_unavailable_is_cached e None initial
           {| status := 204; body := None |} s1
           {| status := 200; body := Some {| items := Some [] |} |} s2);
    reflexivity.
Defined.

(** C6: when the live fetch answers with a status above 400 and a last
    played track exists, the call returns that track with [isPlaying] false
    and leaves [nowPlayingCache] (payload and expiry) as it was; when no last
    played track exists, the unavailable value is stored in the cache with
    the expiry [Date.now() + NOW_PLAYING_TTL] and returned. *)
Theorem error_status_falls_back_without_caching e options s r s1 :
  cache_hit (force_of options) e (nowPlayingCache s) = None ->
  fetchNowPlayingFromSpotify e s = (Ok r, s1) ->
  status r > 400 ->
  (forall T,
     lastPlayedTrack s = Some T ->
     getNowPlaying e options s =
       (Ok (Playing {| artist := artist T; isPlaying := false;
                       title := title T |}), s1) /\
     nowPlayingCache s1 = nowPlayingCache s /\
     lastPlayedTrack s1 = Some T) /\
  (lastPlayedTrack s = None ->
     getNowPlaying e options s =
       (Ok Unavailable,
        {| tokenCache := tokenCache s1;
           nowPlayingCache :=
             {| payload := Some Unavailable;
                np_expires_at := now_cache_store e + NOW_PLAYING_TTL e |};
           lastPlayedTrack := None;
           outbound := outbound s1 |})).
Proof.
  intros Hm Hl Hs.
  rewrite (getNowPlaying_error _ _ _ _ _ Hm Hl Hs), error_status_run.
  destruct (fetchNowPlayingFromSpotify_frame _ _ _ _ Hl) as [Hc Ht].
  rewrite Ht. split.
  - intros T HT. rewrite HT. auto.
  - intros HN. rewrite HN. unfold set_nowPlayingCache.
    now rewrite Ht, HN.
Qed.

Lemma error_status_falls_back_without_caching_witness :
  let e := env_at (t0 + 20000) live_server_error NetworkFailure in
  let s1 := snd (fetchNowPlayingFromSpotify e after_playing) in
  cache_hit (force_of None) e (nowPlayingCache after_playing) = None /\
  fetchNowPlayingFromSpotify e after_playing
  = (Ok {| status := 500; body := None |}, s1) /\
  500 > 400 /\
  lastPlayedTrack after_playing = Some (A_by_B true) /\
  getNowPlaying e None after_playing = (Ok (Playing (A_by_B false)), s1) /\
  nowPlayingCache s1 =
    {| payload := Some (Playing (A_by_B true)); np_expires_at := t0 + 10000 |}.
Proof.
  intros e s1.
  split; [reflexivity|]. split; [reflexivity|]. split; [reflexivity|].
  split; [reflexivity|].
  destruct (error_status_falls_back_without_caching e None after_playing
              {| status := 500; body := None |} s1
              eq_refl eq_refl eq_refl) as [Hsome _].
  destruct (Hsome (A_by_B true) eq_refl) as (Hrun & Hcache & _).
  split; [exact Hrun|]. rewrite Hcache. reflexivity.
Defined.



(** *** Failures of the live fetch *)

(** C1 (as the code has it): in a state that holds a last played track [T],
    a call that reaches the live fetch and whose live fetch fails with a
    network error does not return [T]: the exception leaves [getNowPlaying],
    and [lastPlayedTrack] and [nowPlayingCache] are as before the call. *)
Theorem live_network_failure_propagates e options s T :
  lastPlayedTrack s = Some T ->
  cache_hit (force_of options) e (nowPlayingCache s) = None ->
  live e = NetworkFailure ->
  exists x s',
    getNowPlaying e options s = (Throw x, s') /\
    lastPlayedTrack s' = Some T /\
    nowPlayingCache s' = nowPlayingCache s.
Proof.
  intros HT Hm Hl.
  destruct (fetchNowPlayingFromSpotify_down e s Hl) as (x & s' & Hf).
  exists x, s'. split.
  - exact (getNowPlaying_live_throws _ _ _ _ _ Hm Hf).
  - destruct (fetchNowPlayingFromSpotify_frame _ _ _ _ Hf) as [Hc Ht].
    split; congruence.
Qed.

Lemma live_network_failure_propagates_witness :
  lastPlayedTrack after_playing = Some (A_by_B true) /\
  cache_hit (force_of None) (env_at (t0 + 20000) NetworkFailure recent_none)
    (nowPlayingCache after_playing) = None /\
  live (env_at (t0 + 20000) NetworkFailure recent_none) = NetworkFailure /\
  exists x s',
    getNowPlaying (env_at (t0 + 20000) NetworkFailure recent_none) None
      after_playing = (Throw x, s') /\
    lastPlayedTrack s' = Some (A_by_B true) /\
    nowPlayingCache s' = nowPlayingCache after_playing.
Proof.
  split; [reflexivity|]. split; [reflexivity|]. split; [reflexivity|].
  apply (live_network_failure_propagates
           (env_at (t0 + 20000) NetworkFailure recent_none) None
           after_playing (A_by_B true)); reflexivity.
Defined.

(** C1 as stated fails: a first call at [t0] resolves and stores track A,
    a second call after the cache expired meets a network failure of the
    live fetch, and the second call throws instead of returning A. *)
Lemma live_network_failure_counterexample :
  getNowPlaying (env_at t0 live_playing recent_none) None initial
  = (Ok (Playing (A_by_B true)), after_playing) /\
  lastPlayedTrack after_playing = Some (A_by_B true) /\
  live (env_at (t0 + 20000) NetworkFailure recent_none) = NetworkFailure /\
  fst (getNowPlaying (env_at (t0 + 20000) NetworkFailure recent_none) None
         after_playing) = Throw FetchFailed /\
  fst (getNowPlaying (env_at (t0 + 20000) NetworkFailure recent_none) None
         after_playing)
  <> Ok (Playing {| artist := artist (A_by_B true); isPlaying := false;
                    title := title (A_by_B true) |}).
Proof.
  split; [reflexivity|]. split; [reflexivity|]. split; [reflexivity|].
  split; [reflexivity|]. vm_compute. discriminate.
Qed.

(** *** The 204 branch when nothing was recently played *)

(** The part of C2 that the code has: when the recently-played request
    throws, the last played track comes back with [isPlaying] false and
    [nowPlayingCache] is not assigned; without a last played track the
    unavailable value is cached and returned. *)
Lemma recently_played_failure_returns_last_track e options s r s1 x s2 :
  cache_hit (force_of options) e (nowPlayingCache s) = None ->
  fetchNowPlayingFromSpotify e s = (Ok r, s1) ->
  status r = 204 ->
  fetchRecentlyPlayed e s1 = (Throw x, s2) ->
  (forall T,
     lastPlayedTrack s = Some T ->
     getNowPlaying e options s =
       (Ok (Playing {| artist := artist T; isPlaying := false;
                       title := title T |}), s2) /\
     nowPlayingCache s2 = nowPlayingCache s) /\
  (lastPlayedTrack s = None ->
     getNowPlaying e options s =
       (Ok Unavailable,
        set_nowPlayingCache
          {| payload := Some Unavailable;
             np_expires_at := now_cache_store e + NOW_PLAYING_TTL e |} s2)).
Proof.
  intros Hm Hl Hs Hr.
  rewrite (getNowPlaying_204 _ _ _ _ _ Hm Hl Hs).
  rewrite (nothing_playing_throws _ _ _ _ Hr).
  destruct (fetchNowPlayingFromSpotify_frame _ _ _ _ Hl) as [Hc1 Ht1].
  destruct (fetchRecentlyPlayed_frame _ _ _ _ Hr) as [Hc2 Ht2].
  rewrite Ht2, Ht1. split.
  - intros T HT. rewrite HT. split; [reflexivity|congruence].
  - intros HN. now rewrite HN.
Qed.

(** C2 (what the code does where the claim fails): the live fetch answers
    204, the recently-played fetch succeeds with an empty item list, and a
    last played track [T] exists; the call returns the unavailable value and
    stores it in [nowPlayingCache], [T] is not returned. *)
Theorem empty_recently_played_ignores_last_track e options s T r s1 rr s2 :
  lastPlayedTrack s = Some T ->
  cache_hit (force_of options) e (nowPlayingCache s) = None ->
  fetchNowPlayingFromSpotify e s = (Ok r, s1) ->
  status r = 204 ->
  fetchRecentlyPlayed e s1 = (Ok rr, s2) ->
  ok rr = true ->
  body rr = Some {| items := Some [] |} ->
  getNowPlaying e options s =
    (Ok Unavailable,
     {| tokenCache := tokenCache s2;
        nowPlayingCache :=
          {| payload := Some Unavailable;
             np_expires_at := now_cache_store e + NOW_PLAYING_TTL e |};
        lastPlayedTrack := Some T;
        outbound := outbound s2 |}).
Proof.
  intros HT Hm Hl Hs Hr Hok Hb.
  rewrite (getNowPlaying_204 _ _ _ _ _ Hm Hl Hs).
  rewrite (nothing_playing_empty _ _ _ _ _ Hr Hok Hb eq_refl).
  unfold set_nowPlayingCache.
  destruct (fetchNowPlayingFromSpotify_frame _ _ _ _ Hl) as [_ Ht1].
  destruct (fetchRecentlyPlayed_frame _ _ _ _ Hr) as [_ Ht2].
  now rewrite Ht2, Ht1, HT.
Qed.

Lemma empty_recently_played_ignores_last_track_witness :
  lastPlayedTrack after_playing = Some (A_by_B true) /\
  cache_hit (force_of None) (env_at (t0 + 20000) live_nothing recent_none)
    (nowPlayingCache after_playing) = None /\
  fst (fetchNowPlayingFromSpotify (env_at (t0 + 20000) live_nothing recent_none)
         after_playing) = Ok {| status := 204; body := None |} /\
  fst (fetchRecentlyPlayed (env_at (t0 + 20000) live_nothing recent_none)
         (snd (fetchNowPlayingFromSpotify
                 (env_at (t0 + 20000) live_nothing recent_none) after_playing)))
  = Ok {| status := 200; body := Some {| items := Some [] |} |} /\
  fst (getNowPlaying (env_at (t0 + 20000) live_nothing recent_none) None
         after_playing) = Ok Unavailable /\
  nowPlayingCache
    (snd (getNowPlaying (env_at (t0 + 20000) live_nothing recent_none) None
            after_playing))
  = {| payload := Some Unavailable; np_expires_at := t0 + 30000 |}.
Proof.
  split; [reflexivity|]. split; [reflexivity|]. split; [reflexivity|].
  split; [reflexivity|].
  rewrite (empty_recently_played_ignores_last_track
             (env_at (t0 + 20000) live_nothing recent_none) None
             after_playing (A_by_B true)
             {| status := 204; body := None |}
             (snd (fetchNowPlayingFromSpotify
                     (env_at (t0 + 20000) live_nothing recent_none)
                     after_playing))
             {| status := 200; body := Some {| items := Some [] |} |}
             (snd (fetchRecentlyPlayed
                     (env_at (t0 + 20000) live_nothing recent_none)
                     (snd (fetchNowPlayingFromSpotify
                             (env_at (t0 + 20000) live_nothing recent_none)
                             after_playing))))
             eq_refl eq_refl eq_refl eq_refl eq_refl eq_refl eq_refl).
  split; reflexivity.
Defined.

(** *** The artist of a live track *)

(** C9 (as the code has it): for a live response with status 200 whose body
    holds a track, the returned artist is the name of the first entry of the
    track's artist list; when that list is empty the call throws a
    [TypeError] to its caller, and [nowPlayingCache] and [lastPlayedTrack]
    are as before the call. *)
Theorem live_artist_is_first_or_type_error e options s r s1 song it :
  cache_hit (force_of options) e (nowPlayingCache s) = None ->
  fetchNowPlayingFromSpotify e s = (Ok r, s1) ->
  status r = 200 ->
  body r = Some song ->
  item song = Some it ->
  (forall a rest,
     artists it = a :: rest ->
     fst (getNowPlaying e options s) =
       Ok (Playing {| artist := artist_name a; isPlaying := is_playing song;
                      title := name it |})) /\
  (artists it = [] ->
     getNowPlaying e options s = (Throw TypeError, s1) /\
     nowPlayingCache s1 = nowPlayingCache s /\
     lastPlayedTrack s1 = lastPlayedTrack s).
Proof.
  intros Hm Hl Hs Hb Hi.
  assert (H204 : status r <> 204) by lia.
  assert (H400 : status r <= 400) by lia.
  rewrite (getNowPlaying_parse _ _ _ _ _ Hm Hl H204 H400). split.
  - intros a rest Ha.
    now rewrite (parse_song_track _ _ _ _ _ _ _ Hb Hi Ha).
  - intros Ha. split.
    + unfold parse_song, json, first_artist_name.
      rewrite Hb. cbn. rewrite Hi, Ha. reflexivity.
    + exact (fetchNowPlayingFromSpotify_frame _ _ _ _ Hl).
Qed.

Lemma live_artist_is_first_or_type_error_witness :
  cache_hit (force_of None) (env_at t0 live_without_artist recent_none)
    (nowPlayingCache initial) = None /\
  fst (fetchNowPlayingFromSpotify (env_at t0 live_without_artist recent_none)
         initial)
  = Ok {| status := 200;
          body := Some {| item := Some track_without_artist;
                          is_playing := true |} |} /\
  artists track_without_artist = [] /\
  fst (getNowPlaying (env_at t0 live_without_artist recent_none) None initial)
  = Throw TypeError.
Proof.
  split; [reflexivity|]. split; [reflexivity|]. split; [reflexivity|].
  destruct (live_artist_is_first_or_type_error
              (env_at t0 live_without_artist recent_none) None initial
              {| status := 200;
                 body := Some {| item := Some track_without_artist;
                                 is_playing := true |} |}
              (snd (fetchNowPlayingFromSpotify
                      (env_at t0 live_without_artist recent_none) initial))
              {| item := Some track_without_artist; is_playing := true |}
              track_without_artist
              eq_refl eq_refl eq_refl eq_refl eq_refl) as [_ Hempty].
  destruct (Hempty eq_refl) as [Hrun _].
  rewrite Hrun. reflexivity.
Defined.

(** C9 as stated fails: a 200 response whose track has no artist makes the
    call throw; it does not return the unavailable value. *)
Lemma live_without_artist_counterexample :
  live (env_at t0 live_without_artist recent_none)
  = Responded {| status := 200;
                 body := Some {| item := Some {| name := "A"; artists := [] |};
                                 is_playing := true |} |} /\
  fst (getNowPlaying (env_at t0 live_without_artist recent_none) None initial)
  = Throw TypeError /\
  fst (getNowPlaying (env_at t0 live_without_artist recent_none) None initial)
  <> Ok Unavailable.
Proof.
  split; [reflexivity|]. split; [reflexivity|]. vm_compute. discriminate.
Qed.

(** ** Properties of the token manager *)

Lemma token_valid_true c now :
  token_valid c now = true ->
  exists tok exp,
    access_token c = Some tok /\ tok <> EmptyString /\
    expires_at c = Some exp /\ exp <> 0 /\ now < exp.
Proof.
  unfold token_valid, truthy_string, truthy_number, lt_number.
  destruct (access_token c) as [[|ch tok]|]; cbn; try discriminate.
  destruct (expires_at c) as [exp|]; cbn; try discriminate.
  destruct (Z.eqb_spec exp 0); cbn; try discriminate.
  destruct (Z.ltb_spec now exp); try discriminate.
  intros _. exists (String ch tok), exp. repeat split; auto. discriminate.
Qed.

Lemma token_valid_intro c now tok exp :
  access_token c = Some tok -> tok <> EmptyString ->
  expires_at c = Some exp -> exp <> 0 -> now < exp ->
  token_valid c now = true.
Proof.
  intros Ha Hne He H0 Hlt.
  unfold token_valid, truthy_string, truthy_number, lt_number.
  rewrite Ha, He. destruct tok; [contradiction|].
  destruct (Z.eqb_spec exp 0); [contradiction|].
  destruct (Z.ltb_spec now exp); [reflexivity|lia].
Qed.

Lemma getAccessToken_cached te s :
  token_valid (tokenCache s) (now_check te) = true ->
  getAccessToken te s = (Ok (access_token (tokenCache s)), s).
Proof. intros H. unfold getAccessToken. cbn. now rewrite H. Qed.

Lemma getAccessToken_exchanged te s r d :
  token_valid (tokenCache s) (now_check te) = false ->
  exchange te = Responded r -> body r = Some d ->
  getAccessToken te s =
  (Ok (data_access_token d),
   set_tokenCache
     {| access_token := data_access_token d;
        expires_at := token_expiry (now_store te) (data_expires_in d) |}
     (log_request PostToken s)).
Proof.
  intros H He Hb. unfold getAccessToken, exchange_data. cbn.
  rewrite H, He. cbn. rewrite Hb. reflexivity.
Qed.


(** ** The last played track across calls *)

(** C8 as stated fails: after a call that finds track A playing, the
    reachable state holds a last played track whose [isPlaying] is true. *)
Lemma last_played_is_playing_counterexample :
  reachable after_playing /\
  lastPlayedTrack after_playing
  = Some {| artist := "B"; isPlaying := true; title := "A" |} /\
  ~ (forall s, reachable s ->
       forall p, lastPlayedTrack s = Some p -> isPlaying p = false).
Proof.
  assert (Hr : reachable after_playing).
  { apply (@reachable_call (env_at t0 live_playing recent_none) None initial
             (Ok (Playing (A_by_B true))) after_playing reachable_initial).
    reflexivity. }
  split; [exact Hr|]. split; [reflexivity|].
  intros H. specialize (H after_playing Hr (A_by_B true) eq_refl).
  discriminate H.
Qed.


(** ** Further properties: requests issued by a call *)

Lemma getAccessToken_run te s o s' :
  getAccessToken te s = (o, s') ->
  (token_valid (tokenCache s) (now_check te) = true /\
   o = Ok (access_token (tokenCache s)) /\ s' = s) \/
  (token_valid (tokenCache s) (now_check te) = false /\
   outbound s' = PostToken :: outbound s /\
   ((exists x, o = Throw x /\ tokenCache s' = tokenCache s) \/
    (exists r d,
       exchange te = Responded r /\ body r = Some d /\
       o = Ok (data_access_token d) /\
       tokenCache s' =
         {| access_token := data_access_token d;
            expires_at := token_expiry (now_store te) (data_expires_in d) |}))).
Proof.
  destruct (token_valid (tokenCache s) (now_check te)) eqn:Hv.
  - rewrite (getAccessToken_cached _ _ Hv). intros [= <- <-]. left. auto.
  - right. split; [reflexivity|]. revert H.
    unfold getAccessToken, exchange_data. cbn. rewrite Hv.
    destruct (exchange te) as [|r] eqn:He; cbn.
    + intros [= <- <-]. split; [reflexivity|]. left. eauto.
    + destruct (body r) as [d|] eqn:Hb; cbn;
        [|destruct (exchange_null te); cbn]; intros [= <- <-];
        (split; [reflexivity|]).
      * right. exists r, d. auto.
      * left. eauto.
      * left. eauto.
Qed.

Lemma token_then_fetch_run {B} te (rq : option string -> Request)
    (answer : FetchResult B) s o s' :
  (access <- getAccessToken te ;; fetch (rq access) answer) s = (o, s') ->
  (exists x s1,
     getAccessToken te s = (Throw x, s1) /\ o = Throw x /\ s' = s1) \/
  (exists tok s1,
     getAccessToken te s = (Ok tok, s1) /\
     access_token (tokenCache s1) = tok /\
     tokenCache s' = tokenCache s1 /\
     outbound s' = rq tok :: outbound s1).
Proof.
  cbn -[getAccessToken fetch].
  destruct (getAccessToken te s) as [[tok|x] s1] eqn:Ht.
  - intros Hf. right. exists tok, s1. split; [reflexivity|].
    destruct (fetch_frame _ _ _ _ _ Hf) as (_ & _ & Htc).
    split; [|split; [exact Htc|]].
    + destruct (getAccessToken_run _ _ _ _ Ht)
        as [(_ & Ho & ->)|(_ & _ & [(x & Ho & _)|(r & d & _ & _ & Ho & Hc)])].
      * now injection Ho as <-.
      * discriminate Ho.
      * injection Ho as Ho. rewrite Hc. cbn. congruence.
    + revert Hf. unfold fetch. cbn.
      destruct answer; cbn; intros [= <- <-]; reflexivity.
  - intros [= <- <-]. left. eauto.
Qed.

(** The requests of one token-then-fetch step: a failed exchange alone, or
    the request itself, after an exchange or not. *)
Lemma token_then_fetch_requests {B} te (rq : option string -> Request)
    (answer : FetchResult B) s o s' :
  (access <- getAccessToken te ;; fetch (rq access) answer) s = (o, s') ->
  exists l,
    outbound s' = l ++ outbound s /\
    (l = [PostToken] \/
     l = [rq (access_token (tokenCache s'))] \/
     l = [rq (access_token (tokenCache s')); PostToken]).
Proof.
  intros H.
  destruct (token_then_fetch_run _ _ _ _ _ _ H)
    as [(x & s1 & Ht & _ & ->)|(tok & s1 & Ht & Htok & Htc & Hout)].
  - destruct (getAccessToken_run _ _ _ _ Ht)
      as [(_ & Ho & _)|(_ & Hout & _)]; [discriminate Ho|].
    exists [PostToken]. auto.
  - rewrite Htc, Htok.
    destruct (getAccessToken_run _ _ _ _ Ht) as [(_ & _ & ->)|(_ & Hout1 & _)].
    + exists [rq tok]. auto.
    + exists [rq tok; PostToken]. rewrite Hout, Hout1. auto.
Qed.

(** The assignments of the 204 branch touch neither the token cache nor
    the request log. *)
Lemma nothing_playing_upstream e s o s' :
  nothing_playing e s = (o, s') ->
  exists o2 s2,
    fetchRecentlyPlayed e s = (o2, s2) /\
    outbound s' = outbound s2 /\ tokenCache s' = tokenCache s2.
Proof.
  destruct (fetchRecentlyPlayed e s) as [o2 s2] eqn:Hr.
  intros H. exists o2, s2. split; [reflexivity|]. revert H.
  unfold nothing_playing, try_recently_played, json, first_artist_name.
  cbn -[fetchRecentlyPlayed]. rewrite Hr.
  destruct o2 as [rr|x]; cbn.
  - destruct (ok rr); cbn; [|intros [= <- <-]; auto].
    destruct (body rr) as [rp|]; cbn.
    + destruct (items rp) as [[|first rest]|]; cbn;
        try (intros [= <- <-]; auto).
      destruct (artists (track first)); cbn.
      * destruct (lastPlayedTrack s2); intros [= <- <-]; auto.
      * intros [= <- <-]; auto.
    + destruct (lastPlayedTrack s2); intros [= <- <-]; auto.
  - destruct (lastPlayedTrack s2); intros [= <- <-]; auto.
Qed.

Lemma parse_song_upstream e r s o s' :
  parse_song e r s = (o, s') ->
  outbound s' = outbound s /\ tokenCache s' = tokenCache s.
Proof.
  unfold parse_song, json, first_artist_name.
  destruct (body r) as [song|]; cbn; [|intros [= <- <-]; auto].
  destruct (item song) as [it|]; cbn; [|intros [= <- <-]; auto].
  destruct (artists it); cbn; intros [= <- <-]; auto.
Qed.

Lemma error_status_upstream e s o s' :
  error_status e s = (o, s') ->
  outbound s' = outbound s /\ tokenCache s' = tokenCache s.
Proof.
  rewrite error_status_run.
  destruct (lastPlayedTrack s); intros [= <- <-]; auto.
Qed.

(** Where the requests of a call come from: none on a cache hit, else
    those of the live fetch, followed in the 204 branch by those of the
    recently-played fetch. *)
Lemma getNowPlaying_upstream e options s o s' :
  getNowPlaying e options s = (o, s') ->
  (cache_hit (force_of options) e (nowPlayingCache s) <> None /\ s' = s) \/
  (cache_hit (force_of options) e (nowPlayingCache s) = None /\
   exists o1 s1,
     fetchNowPlayingFromSpotify e s = (o1, s1) /\
     ((outbound s' = outbound s1 /\ tokenCache s' = tokenCache s1) \/
      (exists r o2 s2,
         o1 = Ok r /\ status r = 204 /\
         fetchRecentlyPlayed e s1 = (o2, s2) /\
         outbound s' = outbound s2 /\ tokenCache s' = tokenCache s2))).
Proof.
  destruct (cache_hit (force_of options) e (nowPlayingCache s)) as [v|] eqn:Hm.
  { rewrite (getNowPlaying_hit _ _ _ _ Hm). intros [= <- <-].
    left. split; [discriminate|reflexivity]. }
  right. split; [reflexivity|].
  destruct (fetchNowPlayingFromSpotify e s) as [[r|x] s1] eqn:Hl.
  2:{ rewrite (getNowPlaying_live_throws _ _ _ _ _ Hm Hl) in H.
      injection H as <- <-. exists (Throw x), s1. auto. }
  exists (Ok r), s1. split; [reflexivity|].
  destruct (Z.eq_dec (status r) 204) as [H204|H204].
  - rewrite (getNowPlaying_204 _ _ _ _ _ Hm Hl H204) in H.
    destruct (nothing_playing_upstream _ _ _ _ H) as (o2 & s2 & Hr & Ho & Ht).
    right. exists r, o2, s2. auto.
  - left. destruct (Z_gt_le_dec (status r) 400) as [H400|H400].
    + rewrite (getNowPlaying_error _ _ _ _ _ Hm Hl H400) in H.
      exact (error_status_upstream _ _ _ _ H).
    + rewrite (getNowPlaying_parse _ _ _ _ _ Hm Hl H204 H400) in H.
      exact (parse_song_upstream _ _ _ _ _ H).
Qed.

Lemma getNowPlaying_requests e options s o s' :
  getNowPlaying e options s = (o, s') ->
  (cache_hit (force_of options) e (nowPlayingCache s) <> None /\ s' = s) \/
  (cache_hit (force_of options) e (nowPlayingCache s) = None /\
   exists l1 l2 a1 a2,
     outbound s' = l2 ++ l1 ++ outbound s /\
     (l1 = [PostToken] \/ l1 = [GetCurrentlyPlaying a1] \/
      l1 = [GetCurrentlyPlaying a1; PostToken]) /\
     (l2 = [] \/
      (l1 <> [PostToken] /\
       (l2 = [PostToken] \/ l2 = [GetRecentlyPlayed a2] \/
        l2 = [GetRecentlyPlayed a2; PostToken])))).
Proof.
  intros H.
  destruct (getNowPlaying_upstream _ _ _ _ _ H)
    as [Hhit|(Hm & o1 & s1 & Hl & Hrest)]; [now left|].
  right. split; [exact Hm|].
  destruct (token_then_fetch_requests _ _ _ _ _ _ Hl) as (l1 & Hout1 & Hl1).
  destruct Hrest as [(Hout & _)|(r & o2 & s2 & -> & _ & Hr & Hout & _)].
  - exists l1, [], (access_token (tokenCache s1)), None.
    split; [cbn; congruence|]. split; [exact Hl1|now left].
  - destruct (token_then_fetch_requests _ _ _ _ _ _ Hr) as (l2 & Hout2 & Hl2).
    exists l1, l2, (access_token (tokenCache s1)), (access_token (tokenCache s2)).
    split; [congruence|]. split; [exact Hl1|]. right. split; [|exact Hl2].
    intros ->.
    destruct (token_then_fetch_run _ _ _ _ _ _ Hl)
      as [(x & s0 & _ & Ho & _)|(tok & s0 & _ & _ & _ & Ho)];
      [discriminate Ho|].
    rewrite Hout1 in Ho. cbn in Ho. injection Ho as Ho _. discriminate Ho.
Qed.

Lemma miss_goes_upstream e options s :
  cache_hit (force_of options) e (nowPlayingCache s) = None ->
  outbound (snd (getNowPlaying e options s)) <> outbound s.
Proof.
  intros Hm Hsame.
  destruct (getNowPlaying e options s) as [o s'] eqn:H. cbn in Hsame.
  destruct (getNowPlaying_requests _ _ _ _ _ H)
    as [(Hhit & _)|(_ & l1 & l2 & a1 & a2 & Hout & Hl1 & _)];
    [contradiction|].
  rewrite Hsame in Hout. apply (f_equal (@length _)) in Hout.
  rewrite !length_app in Hout.
  destruct Hl1 as [->|[->| ->]]; cbn in Hout; lia.
Qed.

(** X1: a call of [getNowPlaying] issues no request exactly when it is
    answered from the cache, that is when [forceRefresh] is off, the cache
    is populated and the clock is before its expiry; a forced call, a call
    on an empty cache and a call at or after the expiry all go upstream. *)
Theorem no_request_iff_served_from_cache e options s :
  outbound (snd (getNowPlaying e options s)) = outbound s <->
  (force_of options = false /\
   exists v,
     payload (nowPlayingCache s) = Some v /\
     now_cache_check e < np_expires_at (nowPlayingCache s)).
Proof.
  destruct (getNowPlaying e options s) as [o s'] eqn:H. cbn. split.
  - intros Hsame.
    destruct (getNowPlaying_requests _ _ _ _ _ H)
      as [(Hhit & _)|(_ & l1 & l2 & a1 & a2 & Hout & Hl1 & _)].
    + destruct (cache_hit (force_of options) e (nowPlayingCache s))
        as [v|] eqn:Hc; [|contradiction].
      destruct (cache_hit_inv _ _ _ _ Hc) as (Hf & Hp & Hlt). eauto.
    + exfalso. rewrite Hsame in Hout. apply (f_equal (@length _)) in Hout.
      rewrite !length_app in Hout.
      destruct Hl1 as [->|[->| ->]]; cbn in Hout; lia.
  - intros (Hf & v & Hp & Hlt).
    rewrite (getNowPlaying_hit e options s v) in H.
    + now injection H as _ <-.
    + rewrite Hf. now apply cache_hit_intro.
Qed.

Lemma no_request_iff_served_from_cache_witness :
  outbound (snd (getNowPlaying (env_at (t0 + 9999) live_playing recent_none)
                   None after_playing))
  = outbound after_playing /\
  outbound (snd (getNowPlaying (env_at (t0 + 10000) live_playing recent_none)
                   None after_playing))
  <> outbound after_playing.
Proof.
  split.
  - apply (proj2 (no_request_iff_served_from_cache
                    (env_at (t0 + 9999) live_playing recent_none) None
                    after_playing)).
    split; [reflexivity|].
    exists (Playing (A_by_B true)). split; reflexivity.
  - intros Hsame.
    apply (proj1 (no_request_iff_served_from_cache
                    (env_at (t0 + 10000) live_playing recent_none) None
                    after_playing)) in Hsame.
    destruct Hsame as (_ & v & _ & Hlt).
    vm_compute in Hlt. discriminate Hlt.
Defined.

(** X2: one call of [getNowPlaying] only adds to the request log, and it
    adds at most four requests: at most two token exchanges, at most one
    currently-playing request and at most one recently-played request.
    They come in order: the log of the call (newest first) splits into a
    later part without any currently-playing request and an earlier part
    without any recently-played request, and a recently-played request is
    made only when the earlier part holds the currently-playing request. *)
Theorem requests_of_a_call_are_bounded e options s :
  exists l,
    outbound (snd (getNowPlaying e options s)) = l ++ outbound s /\
    (length l <= 4)%nat /\
    (length (filter is_token_request l) <= 2)%nat /\
    (length (filter is_live_request l) <= 1)%nat /\
    (length (filter is_recent_request l) <= 1)%nat /\
    exists earlier later,
      l = later ++ earlier /\
      existsb is_recent_request earlier = false /\
      existsb is_live_request later = false /\
      (existsb is_recent_request later = true ->
       existsb is_live_request earlier = true).
Proof.
  destruct (getNowPlaying e options s) as [o s'] eqn:H. cbn.
  destruct (getNowPlaying_requests _ _ _ _ _ H)
    as [(_ & ->)|(_ & l1 & l2 & a1 & a2 & Hout & Hl1 & Hl2)].
  - exists []. cbn. repeat split; auto; try lia.
    exists [], []. cbn. repeat split; auto.
  - exists (l2 ++ l1). rewrite <- app_assoc. split; [exact Hout|].
    assert (Hall : (length (l2 ++ l1) <= 4)%nat /\
                   (length (filter is_token_request (l2 ++ l1)) <= 2)%nat /\
                   (length (filter is_live_request (l2 ++ l1)) <= 1)%nat /\
                   (length (filter is_recent_request (l2 ++ l1)) <= 1)%nat /\
                   existsb is_recent_request l1 = false /\
                   existsb is_live_request l2 = false /\
                   (existsb is_recent_request l2 = true ->
                    existsb is_live_request l1 = true)).
    { destruct Hl1 as [->|[->| ->]];
        destruct Hl2 as [->|(Hne & [->|[->| ->]])];
        cbn; repeat split; auto; try lia; try contradiction. }
    destruct Hall as (K1 & K2 & K3 & K4 & K5 & K6 & K7).
    repeat (split; [assumption|]).
    exists l1, l2. auto.
Qed.

Lemma requests_of_a_call_are_bounded_witness :
  exists l,
    outbound (snd (getNowPlaying (env_short_tokens t0) None initial))
    = l ++ outbound initial /\
    (length l <= 4)%nat /\
    l = [ GetRecentlyPlayed (Some "BQD"%string); PostToken;
          GetCurrentlyPlaying (Some "BQD"%string); PostToken ].
Proof.
  destruct (requests_of_a_call_are_bounded (env_short_tokens t0) None initial)
    as (l & Hout & Hlen & _).
  exists l. split; [exact Hout|]. split; [exact Hlen|].
  cbn in Hout. rewrite app_nil_r in Hout. symmetry. exact Hout.
Defined.

(** ** Further properties: what a call does to the two stores *)

(** The 204 branch never throws; it ends in one of three ways. *)
Lemma nothing_playing_outcomes e s o s' :
  nothing_playing e s = (o, s') ->
  (exists T,
     lastPlayedTrack s = Some T /\ o = Ok (Playing (stale T)) /\
     same_stores s s') \/
  (o = Ok Unavailable /\ lastPlayedTrack s' = lastPlayedTrack s /\
   nowPlayingCache s' =
     {| payload := Some Unavailable;
        np_expires_at := now_cache_store e + NOW_PLAYING_TTL e |}) \/
  (exists rr rp first rest a more,
     recent e = Responded rr /\ ok rr = true /\ body rr = Some rp /\
     items rp = Some (first :: rest) /\ artists (track first) = a :: more /\
     o = Ok (Playing {| artist := artist_name a; isPlaying := false;
                        title := name (track first) |}) /\
     lastPlayedTrack s' = Some {| artist := artist_name a; isPlaying := false;
                                  title := name (track first) |} /\
     nowPlayingCache s' =
       {| payload := Some (Playing {| artist := artist_name a;
                                      isPlaying := false;
                                      title := name (track first) |});
          np_expires_at := now_cache_store e + NOW_PLAYING_TTL e |}).
Proof.
  destruct (fetchRecentlyPlayed e s) as [o2 s2] eqn:Hr.
  destruct (fetchRecentlyPlayed_frame _ _ _ _ Hr) as [Hc Ht].
  unfold nothing_playing, try_recently_played, json, first_artist_name.
  cbn -[fetchRecentlyPlayed]. rewrite Hr.
  assert (Hfall : forall o0 s0,
            (Ok Unavailable,
             set_nowPlayingCache
               {| payload := Some Unavailable;
                  np_expires_at := now_cache_store e + NOW_PLAYING_TTL e |} s2)
            = (o0, s0) ->
            o0 = Ok Unavailable /\ lastPlayedTrack s0 = lastPlayedTrack s /\
            nowPlayingCache s0 =
              {| payload := Some Unavailable;
                 np_expires_at := now_cache_store e + NOW_PLAYING_TTL e |}).
  { intros o0 s0 [= <- <-]. cbn. auto. }
  assert (Hcaught : forall o0 s0,
            match lastPlayedTrack s2 with
            | Some t => (Ok (Playing (stale t)), s2)
            | None =>
                (Ok Unavailable,
                 set_nowPlayingCache
                   {| payload := Some Unavailable;
                      np_expires_at := now_cache_store e + NOW_PLAYING_TTL e |}
                   s2)
            end = (o0, s0) ->
            (exists T, lastPlayedTrack s = Some T /\
                       o0 = Ok (Playing (stale T)) /\ same_stores s s0) \/
            (o0 = Ok Unavailable /\ lastPlayedTrack s0 = lastPlayedTrack s /\
             nowPlayingCache s0 =
               {| payload := Some Unavailable;
                  np_expires_at := now_cache_store e + NOW_PLAYING_TTL e |})).
  { intros o0 s0. destruct (lastPlayedTrack s2) as [T|] eqn:HT.
    - intros [= <- <-]. left. exists T. unfold same_stores.
      repeat split; congruence.
    - intros Heq. right. exact (Hfall _ _ Heq). }
  destruct o2 as [rr|x]; cbn.
  - pose proof (fetchRecentlyPlayed_ok_inv _ _ _ _ Hr) as Hrec.
    destruct (ok rr) eqn:Hok; cbn; [|intros Heq; right; left; eauto].
    destruct (body rr) as [rp|] eqn:Hb; cbn.
    + destruct (items rp) as [[|first rest]|] eqn:Hi; cbn;
        try (intros Heq; right; left; eauto; fail).
      destruct (artists (track first)) as [|a more] eqn:Ha; cbn.
      * intros Heq. destruct (Hcaught _ _ ltac:(
          destruct (lastPlayedTrack s2); exact Heq)); auto.
      * intros [= <- <-]. right. right.
        exists rr, rp, first, rest, a, more. cbn. repeat split; auto.
    + intros Heq. destruct (Hcaught _ _ ltac:(
        destruct (lastPlayedTrack s2); exact Heq)); auto.
  - intros Heq. destruct (Hcaught _ _ ltac:(
      destruct (lastPlayedTrack s2); exact Heq)); auto.
Qed.

(** Every way a call of [getNowPlaying] can end. *)
Lemma getNowPlaying_outcomes e options s o s' :
  getNowPlaying e options s = (o, s') ->
  (exists v,
     cache_hit (force_of options) e (nowPlayingCache s) = Some v /\
     o = Ok v /\ s' = s) \/
  (cache_hit (force_of options) e (nowPlayingCache s) = None /\
   ((exists x, o = Throw x /\ same_stores s s') \/
    (exists T,
       lastPlayedTrack s = Some T /\ o = Ok (Playing (stale T)) /\
       same_stores s s') \/
    (o = Ok Unavailable /\ lastPlayedTrack s' = lastPlayedTrack s /\
     nowPlayingCache s' =
       {| payload := Some Unavailable;
          np_expires_at := now_cache_store e + NOW_PLAYING_TTL e |}) \/
    (exists p,
       (live_track e p \/ recent_track e p) /\
       o = Ok (Playing p) /\ lastPlayedTrack s' = Some p /\
       nowPlayingCache s' =
         {| payload := Some (Playing p);
            np_expires_at := now_cache_store e + NOW_PLAYING_TTL e |}))).
Proof.
  destruct (cache_hit (force_of options) e (nowPlayingCache s)) as [v|] eqn:Hm.
  { rewrite (getNowPlaying_hit _ _ _ _ Hm). intros [= <- <-]. left. eauto. }
  intros H. right. split; [reflexivity|].
  destruct (fetchNowPlayingFromSpotify e s) as [[r|x] s1] eqn:Hl;
    destruct (fetchNowPlayingFromSpotify_frame _ _ _ _ Hl) as [Hc Ht].
  2:{ rewrite (getNowPlaying_live_throws _ _ _ _ _ Hm Hl) in H.
      injection H as <- <-. left. exists x. split; [reflexivity|]. now split. }
  pose proof (fetchNowPlayingFromSpotify_ok_inv _ _ _ _ Hl) as Hlive.
  destruct (Z.eq_dec (status r) 204) as [H204|H204].
  - rewrite (getNowPlaying_204 _ _ _ _ _ Hm Hl H204) in H.
    destruct (nothing_playing_outcomes _ _ _ _ H)
      as [(T & HT & Ho & Hs1 & Hs2)|[(Ho & Hs1 & Hs2)|
          (rr & rp & first & rest & a & more & H1 & H2 & H3 & H4 & H5 & Ho & Hs1 & Hs2)]].
    + right. left. exists T. unfold same_stores.
      repeat split; congruence.
    + right. right. left. repeat split; congruence.
    + right. right. right. eexists.
      split; [right|split; [exact Ho|split; [exact Hs1|exact Hs2]]].
      exists r, rr, rp, first, rest, a, more. repeat split; auto.
  - destruct (Z_gt_le_dec (status r) 400) as [H400|H400].
    + rewrite (getNowPlaying_error _ _ _ _ _ Hm Hl H400), error_status_run in H.
      destruct (lastPlayedTrack s1) as [T|] eqn:HT; injection H as <- <-.
      * right. left. exists T. unfold same_stores.
        repeat split; congruence.
      * right. right. left. cbn. repeat split; congruence.
    + rewrite (getNowPlaying_parse _ _ _ _ _ Hm Hl H204 H400) in H.
      destruct (parse_song_cases e r s1)
        as [(song & it & a & rest & Hb & Hi & Ha)|(x & Hx)].
      * rewrite (parse_song_track _ _ _ _ _ _ _ Hb Hi Ha) in H.
        injection H as <- <-. right. right. right. eexists.
        split; [left|cbn; repeat split; reflexivity].
        exists r, song, it, a, rest. repeat split; auto.
      * rewrite Hx in H. injection H as <- <-. left. exists x.
        split; [reflexivity|]. now split.
Qed.

(** X3: a call of [getNowPlaying] that throws has assigned neither
    [nowPlayingCache] nor [lastPlayedTrack]: every exception leaves the
    function before the first assignment to them. *)
Theorem exception_leaves_stores_untouched e options s x s' :
  getNowPlaying e options s = (Throw x, s') ->
  nowPlayingCache s' = nowPlayingCache s /\
  lastPlayedTrack s' = lastPlayedTrack s.
Proof.
  intros H.
  destruct (getNowPlaying_outcomes _ _ _ _ _ H)
    as [(v & _ & Ho & _)|(_ & [(y & _ & Hs)|[(T & _ & Ho & _)|[(Ho & _)|(p & _ & Ho & _)]]])];
    try discriminate Ho.
  exact Hs.
Qed.

Lemma exception_leaves_stores_untouched_witness :
  getNowPlaying (env_at (t0 + 20000) live_without_artist recent_none) None
    after_playing
  = (Throw TypeError,
     snd (getNowPlaying (env_at (t0 + 20000) live_without_artist recent_none)
            None after_playing)) /\
  nowPlayingCache
    (snd (getNowPlaying (env_at (t0 + 20000) live_without_artist recent_none)
            None after_playing))
  = nowPlayingCache after_playing /\
  lastPlayedTrack
    (snd (getNowPlaying (env_at (t0 + 20000) live_without_artist recent_none)
            None after_playing))
  = lastPlayedTrack after_playing.
Proof.
  split; [reflexivity|].
  apply (exception_leaves_stores_untouched
           (env_at (t0 + 20000) live_without_artist recent_none) None
           after_playing TypeError).
  reflexivity.
Defined.

(** X4: whatever a call returns after going upstream is either a stale
    copy of the last played track, with [nowPlayingCache] left as it was, or
    the value now held by [nowPlayingCache] with the expiry
    [Date.now() + NOW_PLAYING_TTL]; in the second case every later call
    without [forceRefresh] made before that expiry returns the same value
    and issues no request. *)
Theorem returned_value_is_stale_or_cached e options s v s' :
  cache_hit (force_of options) e (nowPlayingCache s) = None ->
  getNowPlaying e options s = (Ok v, s') ->
  (exists T,
     lastPlayedTrack s = Some T /\
     v = Playing {| artist := artist T; isPlaying := false; title := title T |} /\
     nowPlayingCache s' = nowPlayingCache s) \/
  (nowPlayingCache s' =
     {| payload := Some v;
        np_expires_at := now_cache_store e + NOW_PLAYING_TTL e |} /\
   forall e' options',
     force_of options' = false ->
     now_cache_check e' < now_cache_store e + NOW_PLAYING_TTL e ->
     getNowPlaying e' options' s' = (Ok v, s')).
Proof.
  intros Hm H.
  assert (Hlater : nowPlayingCache s' =
                     {| payload := Some v;
                        np_expires_at := now_cache_store e + NOW_PLAYING_TTL e |} ->
                   forall e' options',
                     force_of options' = false ->
                     now_cache_check e' < now_cache_store e + NOW_PLAYING_TTL e ->
                     getNowPlaying e' options' s' = (Ok v, s')).
  { intros Hc e' options' Hf Hlt. apply getNowPlaying_hit. rewrite Hf.
    apply cache_hit_intro; rewrite Hc; [reflexivity|exact Hlt]. }
  destruct (getNowPlaying_outcomes _ _ _ _ _ H)
    as [(w & Hhit & _)|(_ & [(y & Ho & _)|[(T & HT & Ho & Hs & _)|[(Ho & _ & Hc)|(p & _ & Ho & _ & Hc)]]])].
  - congruence.
  - discriminate Ho.
  - injection Ho as ->. left. exists T. auto.
  - injection Ho as ->. right. auto.
  - injection Ho as ->. right. auto.
Qed.

Lemma returned_value_is_stale_or_cached_witness :
  cache_hit (force_of None) (env_at t0 live_paused recent_none)
    (nowPlayingCache initial) = None /\
  nowPlayingCache
    (snd (getNowPlaying (env_at t0 live_paused recent_none) None initial))
  = {| payload := Some (Playing (A_by_B false));
       np_expires_at := t0 + 10000 |} /\
  getNowPlaying (env_at (t0 + 9999) NetworkFailure NetworkFailure) None
    (snd (getNowPlaying (env_at t0 live_paused recent_none) None initial))
  = (Ok (Playing (A_by_B false)),
     snd (getNowPlaying (env_at t0 live_paused recent_none) None initial)).
Proof.
  split; [reflexivity|].
  destruct (returned_value_is_stale_or_cached
              (env_at t0 live_paused recent_none) None initial
              (Playing (A_by_B false))
              (snd (getNowPlaying (env_at t0 live_paused recent_none) None
                      initial))
              eq_refl eq_refl) as [(T & HT & _)|(Hc & Hlater)].
  - discriminate HT.
  - split; [exact Hc|].
    apply Hlater; reflexivity.
Defined.

(** One call keeps the three relations between the two stores. *)
Lemma stores_step e options s o s' :
  getNowPlaying e options s = (o, s') ->
  (forall p, payload (nowPlayingCache s) = Some (Playing p) ->
             lastPlayedTrack s = Some p) ->
  (lastPlayedTrack s <> None -> payload (nowPlayingCache s) <> None) ->
  (forall p, payload (nowPlayingCache s') = Some (Playing p) ->
             lastPlayedTrack s' = Some p) /\
  (lastPlayedTrack s' <> None -> payload (nowPlayingCache s') <> None) /\
  (payload (nowPlayingCache s) <> None ->
   payload (nowPlayingCache s') <> None).
Proof.
  intros H I1 I2.
  destruct (getNowPlaying_outcomes _ _ _ _ _ H)
    as [(v & _ & _ & ->)|(_ & [(y & _ & Hc & Ht)|[(T & _ & _ & Hc & Ht)|[(_ & Ht & Hc)|(p & _ & _ & Ht & Hc)]]])].
  - auto.
  - rewrite Hc, Ht. auto.
  - rewrite Hc, Ht. auto.
  - rewrite Hc, Ht. cbn. repeat split; try discriminate.
  - rewrite Hc, Ht. cbn. repeat split; try discriminate.
    now intros q [= ->].
Qed.

(** X5: in every reachable state the two stores agree: a track held by
    [nowPlayingCache] is the last played track, a last played track exists
    only when the cache is populated, and an empty cache still has the
    expiry 0 it was initialised with. *)
Theorem cached_track_is_last_played s :
  reachable s ->
  (forall p, payload (nowPlayingCache s) = Some (Playing p) ->
             lastPlayedTrack s = Some p) /\
  (lastPlayedTrack s <> None -> payload (nowPlayingCache s) <> None) /\
  (payload (nowPlayingCache s) = None -> np_expires_at (nowPlayingCache s) = 0).
Proof.
  induction 1 as [|e options s o s' Hreach IH Hrun].
  - cbn. repeat split; try discriminate. now intros [].
  - destruct IH as (I1 & I2 & I3).
    destruct (stores_step _ _ _ _ _ Hrun I1 I2) as (J1 & J2 & J3).
    split; [exact J1|]. split; [exact J2|].
    intros Hnone.
    destruct (getNowPlaying_outcomes _ _ _ _ _ Hrun)
      as [(v & _ & _ & ->)|(_ & [(y & _ & Hc & _)|[(T & _ & _ & Hc & _)|[(_ & _ & Hc)|(p & _ & _ & _ & Hc)]]])].
    + auto.
    + rewrite Hc in *. auto.
    + rewrite Hc in *. auto.
    + rewrite Hc in Hnone. discriminate Hnone.
    + rewrite Hc in Hnone. discriminate Hnone.
Qed.

Lemma cached_track_is_last_played_witness :
  reachable after_playing /\
  payload (nowPlayingCache after_playing) = Some (Playing (A_by_B true)) /\
  lastPlayedTrack after_playing = Some (A_by_B true).
Proof.
  assert (Hr : reachable after_playing).
  { apply (@reachable_call (env_at t0 live_playing recent_none) None initial
             (Ok (Playing (A_by_B true))) after_playing reachable_initial).
    reflexivity. }
  split; [exact Hr|]. split; [reflexivity|].
  destruct (cached_track_is_last_played after_playing Hr) as (Htrack & _).
  apply Htrack. reflexivity.
Defined.

(** X6: a call either leaves [nowPlayingCache] exactly as it was or
    assigns it a non-null payload with the expiry
    [Date.now() + NOW_PLAYING_TTL]; so a populated cache is never emptied,
    whether the call returns or throws. *)
Theorem cache_is_kept_or_refreshed e options s :
  (nowPlayingCache (snd (getNowPlaying e options s)) = nowPlayingCache s \/
   (payload (nowPlayingCache (snd (getNowPlaying e options s))) <> None /\
    np_expires_at (nowPlayingCache (snd (getNowPlaying e options s)))
    = now_cache_store e + NOW_PLAYING_TTL e)) /\
  (payload (nowPlayingCache s) <> None ->
   payload (nowPlayingCache (snd (getNowPlaying e options s))) <> None).
Proof.
  destruct (getNowPlaying e options s) as [o s'] eqn:H. cbn.
  destruct (getNowPlaying_outcomes _ _ _ _ _ H)
    as [(v & _ & _ & ->)|(_ & [(y & _ & Hc & _)|[(T & _ & _ & Hc & _)|[(_ & _ & Hc)|(p & _ & _ & _ & Hc)]]])];
    rewrite ?Hc; cbn; (split; [|intros Hp]);
    first [ now left
          | exact Hp
          | discriminate
          | right; split; [discriminate|reflexivity] ].
Qed.

Lemma cache_is_kept_or_refreshed_witness :
  payload (nowPlayingCache after_playing) <> None /\
  payload (nowPlayingCache
             (snd (getNowPlaying (env_at (t0 + 20000) NetworkFailure
                                    NetworkFailure) None after_playing)))
  <> None.
Proof.
  assert (Hc : payload (nowPlayingCache after_playing) <> None)
    by discriminate.
  destruct (cache_is_kept_or_refreshed
              (env_at (t0 + 20000) NetworkFailure NetworkFailure) None
              after_playing) as [_ Hcache].
  split; [exact Hc|exact (Hcache Hc)].
Defined.

(** X7: a call returns a track with [isPlaying] true only when the value
    comes out of the cache or the live endpoint answered in this very call,
    outside the 204 and above-400 branches, with [is_playing] true; the
    recently-played and stale fallbacks always report [isPlaying] false. *)
Theorem playing_only_from_cache_or_live e options s p s' :
  getNowPlaying e options s = (Ok (Playing p), s') ->
  isPlaying p = true ->
  cache_hit (force_of options) e (nowPlayingCache s) = Some (Playing p) \/
  (exists r song,
     live e = Responded r /\ status r <> 204 /\ status r <= 400 /\
     body r = Some song /\ is_playing song = true).
Proof.
  intros H Hp.
  destruct (getNowPlaying_outcomes _ _ _ _ _ H)
    as [(v & Hhit & Ho & _)|(_ & [(y & Ho & _)|[(T & _ & Ho & _)|[(Ho & _)|(q & Hq & Ho & _)]]])];
    try discriminate Ho.
  - injection Ho as <-. now left.
  - injection Ho as ->. cbn in Hp. discriminate Hp.
  - injection Ho as <-. destruct Hq as [Hq|Hq].
    + destruct Hq as (r & song & it & a & rest & H1 & H2 & H3 & H4 & _ & _ & ->).
      right. exists r, song. cbn in Hp. auto.
    + destruct Hq as (r & rr & rp & first & rest & a & more & Hq).
      destruct Hq as (_ & _ & _ & _ & _ & _ & _ & ->).
      cbn in Hp. discriminate Hp.
Qed.

Lemma playing_only_from_cache_or_live_witness :
  getNowPlaying (env_at t0 live_playing recent_none) None initial
  = (Ok (Playing (A_by_B true)), after_playing) /\
  isPlaying (A_by_B true) = true /\
  (cache_hit (force_of None) (env_at t0 live_playing recent_none)
     (nowPlayingCache initial) = Some (Playing (A_by_B true)) \/
   exists r song,
     live (env_at t0 live_playing recent_none) = Responded r /\
     status r <> 204 /\ status r <= 400 /\
     body r = Some song /\ is_playing song = true).
Proof.
  split; [reflexivity|]. split; [reflexivity|].
  apply (playing_only_from_cache_or_live
           (env_at t0 live_playing recent_none) None initial
           (A_by_B true) after_playing); reflexivity.
Defined.

(** X8: a call without [forceRefresh] that went upstream and left
    [nowPlayingCache] as it was (a stale fallback or an exception) is not
    remembered: every later call whose clock is not earlier goes upstream
    again, forced or not. *)
Theorem uncached_answer_is_fetched_again e options s o s' e' options' :
  force_of options = false ->
  cache_hit (force_of options) e (nowPlayingCache s) = None ->
  getNowPlaying e options s = (o, s') ->
  nowPlayingCache s' = nowPlayingCache s ->
  now_cache_check e <= now_cache_check e' ->
  cache_hit (force_of options') e' (nowPlayingCache s') = None /\
  outbound (snd (getNowPlaying e' options' s')) <> outbound s'.
Proof.
  intros Hf Hm H Hc Hle.
  assert (Hmiss : cache_hit (force_of options') e' (nowPlayingCache s') = None).
  { rewrite Hc. clear H. rewrite Hf in Hm. unfold cache_hit in Hm |- *.
    destruct (force_of options'); cbn in Hm |- *; [reflexivity|].
    destruct (payload (nowPlayingCache s)) as [v|]; [|reflexivity].
    destruct (Z.ltb_spec (now_cache_check e) (np_expires_at (nowPlayingCache s)));
      [discriminate Hm|].
    destruct (Z.ltb_spec (now_cache_check e') (np_expires_at (nowPlayingCache s)));
      [lia|reflexivity]. }
  split; [exact Hmiss|].
  now apply miss_goes_upstream.
Qed.

Lemma uncached_answer_is_fetched_again_witness :
  force_of None = false /\
  cache_hit (force_of None) (env_at (t0 + 20000) live_server_error recent_none)
    (nowPlayingCache after_playing) = None /\
  fst (getNowPlaying (env_at (t0 + 20000) live_server_error recent_none) None
         after_playing) = Ok (Playing (A_by_B false)) /\
  t0 + 20000 <= t0 + 20001 /\
  outbound
    (snd (getNowPlaying (env_at (t0 + 20001) live_server_error recent_none)
            None
            (snd (getNowPlaying
                    (env_at (t0 + 20000) live_server_error recent_none) None
                    after_playing))))
  <> outbound
       (snd (getNowPlaying (env_at (t0 + 20000) live_server_error recent_none)
               None after_playing)).
Proof.
  assert (Hle : t0 + 20000 <= t0 + 20001) by (vm_compute; discriminate).
  split; [reflexivity|]. split; [reflexivity|]. split; [reflexivity|].
  split; [exact Hle|].
  apply (uncached_answer_is_fetched_again
           (env_at (t0 + 20000) live_server_error recent_none) None
           after_playing
           (fst (getNowPlaying
                   (env_at (t0 + 20000) live_server_error recent_none) None
                   after_playing))
           (snd (getNowPlaying
                   (env_at (t0 + 20000) live_server_error recent_none) None
                   after_playing))
           (env_at (t0 + 20001) live_server_error recent_none) None);
    try reflexivity.
  exact Hle.
Defined.

(** ** Further properties: the token manager *)

Lemma failed_exchange_frame te s x s' :
  getAccessToken te s = (Throw x, s') ->
  outbound s' = PostToken :: outbound s /\ tokenCache s' = tokenCache s.
Proof.
  intros H.
  destruct (getAccessToken_run _ _ _ _ H)
    as [(_ & Ho & _)|(_ & Hout & [(y & _ & Hc)|(r & d & _ & _ & Ho & _)])];
    try discriminate Ho.
  auto.
Qed.

(** X9: [getAccessToken] throws only when the cached token was not valid
    and the exchange it then made failed on the network ([fetch] rejects),
    or answered with a body that is not JSON ([response.json()] rejects
    with a [SyntaxError]), or answered with the JSON value [null]
    ([data.access_token] throws a [TypeError]); it has then issued exactly
    one request and changed nothing else: a failed exchange never overwrites
    the token cache. *)
Theorem failed_exchange_changes_nothing te s x s' :
  getAccessToken te s = (Throw x, s') ->
  token_valid (tokenCache s) (now_check te) = false /\
  ((exchange te = NetworkFailure /\ x = FetchFailed) \/
   (exists r, exchange te = Responded r /\ body r = None /\
              exchange_null te = false /\ x = SyntaxError) \/
   (exists r, exchange te = Responded r /\ body r = None /\
              exchange_null te = true /\ x = TypeError)) /\
  s' = {| tokenCache := tokenCache s;
          nowPlayingCache := nowPlayingCache s;
          lastPlayedTrack := lastPlayedTrack s;
          outbound := PostToken :: outbound s |}.
Proof.
  destruct (token_valid (tokenCache s) (now_check te)) eqn:Hv.
  - rewrite (getAccessToken_cached _ _ Hv). discriminate.
  - unfold getAccessToken, exchange_data. cbn. rewrite Hv.
    destruct (exchange te) as [|r] eqn:He; cbn.
    + intros [= <- <-]. auto.
    + destruct (body r) as [d|] eqn:Hb; cbn; [discriminate|].
      destruct (exchange_null te) eqn:Hn; cbn; intros [= <- <-];
        (split; [reflexivity|]); (split; [|reflexivity]); right.
      * right. exists r. auto.
      * left. exists r. auto.
Qed.

Lemma failed_exchange_changes_nothing_witness :
  getAccessToken (token_env_null t0) initial
  = (Throw TypeError,
     {| tokenCache := tokenCache initial;
        nowPlayingCache := nowPlayingCache initial;
        lastPlayedTrack := lastPlayedTrack initial;
        outbound := PostToken :: outbound initial |}) /\
  getAccessToken (token_env_down t0) initial
  = (Throw FetchFailed,
     {| tokenCache := tokenCache initial;
        nowPlayingCache := nowPlayingCache initial;
        lastPlayedTrack := lastPlayedTrack initial;
        outbound := PostToken :: outbound initial |}).
Proof.
  destruct (failed_exchange_changes_nothing (token_env_null t0) initial
              TypeError (snd (getAccessToken (token_env_null t0) initial))
              eq_refl) as (_ & _ & Hnull).
  destruct (failed_exchange_changes_nothing (token_env_down t0) initial
              FetchFailed (snd (getAccessToken (token_env_down t0) initial))
              eq_refl) as (_ & _ & Hdown).
  split; [rewrite <- Hnull|rewrite <- Hdown]; reflexivity.
Defined.

(** X10: the status of the token response is never looked at.  When the
    exchange answers with a JSON body that lacks [access_token] (or holds an
    empty one) or lacks [expires_in], [getAccessToken] returns what the body
    holds without throwing and stores it; the stored entry is never valid,
    so every later call performs a new exchange, whatever its clock. *)
Theorem unusable_token_is_exchanged_again te s r d :
  token_valid (tokenCache s) (now_check te) = false ->
  exchange te = Responded r ->
  body r = Some d ->
  truthy_string (data_access_token d) = false \/ data_expires_in d = None ->
  fst (getAccessToken te s) = Ok (data_access_token d) /\
  forall te',
    outbound (snd (getAccessToken te' (snd (getAccessToken te s))))
    = PostToken :: PostToken :: outbound s.
Proof.
  intros Hv He Hb Hbad.
  rewrite (getAccessToken_exchanged te s r d Hv He Hb). cbn [fst snd].
  split; [reflexivity|]. intros te'.
  set (s1 := set_tokenCache _ _).
  assert (Hv1 : token_valid (tokenCache s1) (now_check te') = false).
  { subst s1. cbn. unfold token_valid. cbn.
    destruct Hbad as [Hbad|Hbad]; rewrite Hbad; cbn.
    - reflexivity.
    - now rewrite !andb_false_r. }
  destruct (getAccessToken te' s1) as [o s2] eqn:H2. cbn [fst snd].
  destruct (getAccessToken_run _ _ _ _ H2) as [(Hv2 & _)|(_ & Hout & _)];
    [congruence|].
  rewrite Hout. reflexivity.
Qed.

Lemma unusable_token_is_exchanged_again_witness :
  token_valid (tokenCache initial) (now_check (token_env_rejecting t0)) = false /\
  fst (getAccessToken (token_env_rejecting t0) initial) = Ok None /\
  outbound (snd (getAccessToken (token_env_at (t0 + 1))
                   (snd (getAccessToken (token_env_rejecting t0) initial))))
  = [PostToken; PostToken].
Proof.
  split; [reflexivity|].
  destruct (unusable_token_is_exchanged_again (token_env_rejecting t0) initial
              {| status := 400;
                 body := Some {| data_access_token := None;
                                 data_expires_in := None |} |}
              {| data_access_token := None; data_expires_in := None |}
              eq_refl eq_refl eq_refl (or_introl eq_refl)) as [Hret Hagain].
  split; [exact Hret|]. exact (Hagain (token_env_at (t0 + 1))).
Defined.

(** X11: a token whose [expires_in] does not exceed the 60-second buffer
    is stored with an expiry that is not after the time of the store, so it
    is never reused: every later call whose clock has not gone back performs
    a new exchange. *)
Theorem short_lived_token_is_never_reused te s r tok n te' :
  token_valid (tokenCache s) (now_check te) = false ->
  exchange te = Responded r ->
  body r = Some {| data_access_token := tok; data_expires_in := Some n |} ->
  n * 1000 <= 60000 ->
  now_store te <= now_check te' ->
  expires_at (tokenCache (snd (getAccessToken te s)))
  = Some (now_store te + n * 1000 - 60000) /\
  outbound (snd (getAccessToken te' (snd (getAccessToken te s))))
  = PostToken :: PostToken :: outbound s.
Proof.
  intros Hv He Hb Hn Hle.
  rewrite (getAccessToken_exchanged te s r _ Hv He Hb). cbn [fst snd].
  split; [reflexivity|].
  set (s1 := set_tokenCache _ _).
  assert (Hv1 : token_valid (tokenCache s1) (now_check te') = false).
  { subst s1. cbn. unfold token_valid, TOKEN_EXPIRY_BUFFER. cbn.
    destruct (Z.ltb_spec (now_check te') (now_store te + n * 1000 - 60000));
      [lia|]. now rewrite andb_false_r. }
  destruct (getAccessToken te' s1) as [o s2] eqn:H2. cbn [fst snd].
  destruct (getAccessToken_run _ _ _ _ H2) as [(Hv2 & _)|(_ & Hout & _)];
    [congruence|].
  rewrite Hout. reflexivity.
Qed.

Lemma short_lived_token_is_never_reused_witness :
  token_valid (tokenCache initial) (now_check (token_env_lasting 30 t0)) = false /\
  30 * 1000 <= 60000 /\
  now_store (token_env_lasting 30 t0) <= now_check (token_env_at t0) /\
  expires_at (tokenCache (snd (getAccessToken (token_env_lasting 30 t0) initial)))
  = Some (t0 + 30 * 1000 - 60000) /\
  outbound (snd (getAccessToken (token_env_at t0)
                   (snd (getAccessToken (token_env_lasting 30 t0) initial))))
  = [PostToken; PostToken].
Proof.
  assert (H1 : 30 * 1000 <= 60000) by (vm_compute; discriminate).
  assert (H2 : now_store (token_env_lasting 30 t0) <= now_check (token_env_at t0))
    by (vm_compute; discriminate).
  split; [reflexivity|]. split; [exact H1|]. split; [exact H2|].
  apply (short_lived_token_is_never_reused (token_env_lasting 30 t0) initial
           {| status := 200;
              body := Some {| data_access_token := Some "BQD"%string;
                              data_expires_in := Some 30 |} |}
           (Some "BQD"%string) 30 (token_env_at t0)
           eq_refl eq_refl eq_refl H1 H2).
Defined.

(** X12: every request to the two player endpoints carries the token that
    the token cache holds when the request is made, be it a string or
    nothing at all; the only other way the two fetch functions end is a
    failed exchange, after which no player request is made. *)
Theorem player_requests_carry_the_cached_token e s :
  (let (o, s') := fetchNowPlayingFromSpotify e s in
   (exists x, o = Throw x /\ outbound s' = PostToken :: outbound s /\
              tokenCache s' = tokenCache s) \/
   (exists rest,
      outbound s' = GetCurrentlyPlaying (access_token (tokenCache s')) :: rest)) /\
  (let (o, s') := fetchRecentlyPlayed e s in
   (exists x, o = Throw x /\ outbound s' = PostToken :: outbound s /\
              tokenCache s' = tokenCache s) \/
   (exists rest,
      outbound s' = GetRecentlyPlayed (access_token (tokenCache s')) :: rest)).
Proof.
  assert (Hgen : forall B te (rq : option string -> Request)
                   (answer : FetchResult B) o s',
             (access <- getAccessToken te ;; fetch (rq access) answer) s = (o, s') ->
             (exists x, o = Throw x /\ outbound s' = PostToken :: outbound s /\
                        tokenCache s' = tokenCache s) \/
             (exists rest,
                outbound s' = rq (access_token (tokenCache s')) :: rest)).
  { intros B te rq answer o s' H.
    destruct (token_then_fetch_run _ _ _ _ _ _ H)
      as [(x & s1 & Ht & -> & ->)|(tok & s1 & _ & Htok & Htc & Hout)].
    - left. exists x. split; [reflexivity|].
      destruct (failed_exchange_frame _ _ _ _ Ht) as [Ho Hc]. auto.
    - right. exists (outbound s1). rewrite Htc, Htok. exact Hout. }
  split.
  - destruct (fetchNowPlayingFromSpotify e s) as [o s'] eqn:H.
    exact (Hgen _ _ _ _ _ _ H).
  - destruct (fetchRecentlyPlayed e s) as [o s'] eqn:H.
    exact (Hgen _ _ _ _ _ _ H).
Qed.

Lemma player_requests_carry_the_cached_token_witness :
  outbound (snd (fetchNowPlayingFromSpotify
                   {| ttl_override := None;
                      now_cache_check := t0;
                      token_for_live := token_env_rejecting t0;
                      live := live_server_error;
                      token_for_recent := token_env_rejecting t0;
                      recent := recent_none;
                      now_cache_store := t0 |} initial))
  = [GetCurrentlyPlaying None; PostToken].
Proof.
  destruct (player_requests_carry_the_cached_token
              {| ttl_override := None;
                 now_cache_check := t0;
                 token_for_live := token_env_rejecting t0;
                 live := live_server_error;
                 token_for_recent := token_env_rejecting t0;
                 recent := recent_none;
                 now_cache_store := t0 |} initial) as [Hlive _].
  cbn in Hlive. destruct Hlive as [(x & Hx & _)|(rest & Hrest)].
  - discriminate Hx.
  - reflexivity.
Defined.

(** ** Further properties: the route handler *)

Lemma GET_run e query s :
  GET e query s =
  match getNowPlaying e (Some {| forceRefresh := Some (query_force query) |}) s with
  | (Ok data, s') =>
      ({| route_status := 200; route_headers := corsHeaders;
          route_body := DataBody data |}, s')
  | (Throw error, s') =>
      ({| route_status := 500; route_headers := corsHeaders;
          route_body := ErrorBody error |}, s')
  end.
Proof. reflexivity. Qed.

Lemma fetch_throw_inv {B} rq (answer : FetchResult B) s x s' :
  fetch rq answer s = (Throw x, s') -> answer = NetworkFailure.
Proof.
  unfold fetch. cbn. destruct answer; cbn; [reflexivity|discriminate].
Qed.

Lemma parse_song_throws e r s x s' :
  parse_song e r s = (Throw x, s') ->
  s' = s /\
  ~ (exists song it a rest,
       body r = Some song /\ item song = Some it /\ artists it = a :: rest) /\
  ((body r = None /\ x = SyntaxError) \/
   (exists song, body r = Some song /\ x = TypeError)).
Proof.
  unfold parse_song, json, first_artist_name.
  destruct (body r) as [song|] eqn:Hb; cbn.
  - destruct (item song) as [it|] eqn:Hi; cbn.
    + destruct (artists it) as [|a rest] eqn:Ha; cbn; [|discriminate].
      intros [= <- <-]. split; [reflexivity|]. split; [|right; eauto].
      intros (song' & it' & a' & rest' & [= <-] & K2 & K3). congruence.
    + intros [= <- <-]. split; [reflexivity|]. split; [|right; eauto].
      intros (song' & it' & a' & rest' & [= <-] & K2 & K3). congruence.
  - intros [= <- <-]. split; [reflexivity|]. split; [|now left].
    intros (song' & it' & a' & rest' & K1 & _). discriminate K1.
Qed.

Lemma getAccessToken_throws te s x s' :
  getAccessToken te s = (Throw x, s') ->
  token_valid (tokenCache s) (now_check te) = false /\
  ((exchange te = NetworkFailure /\ x = FetchFailed) \/
   (exists r, exchange te = Responded r /\ body r = None /\
              exchange_null te = false /\ x = SyntaxError) \/
   (exists r, exchange te = Responded r /\ body r = None /\
              exchange_null te = true /\ x = TypeError)) /\
  outbound s' = PostToken :: outbound s.
Proof.
  destruct (token_valid (tokenCache s) (now_check te)) eqn:Hv.
  - rewrite (getAccessToken_cached _ _ Hv). discriminate.
  - unfold getAccessToken, exchange_data. cbn. rewrite Hv.
    destruct (exchange te) as [|r] eqn:He; cbn.
    + intros [= <- <-]. auto.
    + destruct (body r) as [d|] eqn:Hb; cbn; [discriminate|].
      destruct (exchange_null te) eqn:Hn; cbn; intros [= <- <-];
        (split; [reflexivity|]); (split; [|reflexivity]); right.
      * right. exists r. auto.
      * left. exists r. auto.
Qed.

(** Why a call of [getNowPlaying] throws, and what it did until then. *)
Lemma getNowPlaying_throw_causes e options s x s' :
  getNowPlaying e options s = (Throw x, s') ->
  cache_hit (force_of options) e (nowPlayingCache s) = None /\
  ((token_valid (tokenCache s) (now_check (token_for_live e)) = false /\
    outbound s' = PostToken :: outbound s /\
    ((exchange (token_for_live e) = NetworkFailure /\ x = FetchFailed) \/
     (exists r, exchange (token_for_live e) = Responded r /\ body r = None /\
                exchange_null (token_for_live e) = false /\ x = SyntaxError) \/
     (exists r, exchange (token_for_live e) = Responded r /\ body r = None /\
                exchange_null (token_for_live e) = true /\ x = TypeError))) \/
   (exists tok s1,
      getAccessToken (token_for_live e) s = (Ok tok, s1) /\
      live e = NetworkFailure /\ x = FetchFailed /\
      outbound s' = GetCurrentlyPlaying tok :: outbound s1) \/
   (exists r,
      fetchNowPlayingFromSpotify e s = (Ok r, s') /\
      status r <> 204 /\ status r <= 400 /\
      ~ (exists song it a rest,
           body r = Some song /\ item song = Some it /\
           artists it = a :: rest) /\
      ((body r = None /\ x = SyntaxError) \/
       (exists song, body r = Some song /\ x = TypeError)))).
Proof.
  destruct (cache_hit (force_of options) e (nowPlayingCache s)) as [v|] eqn:Hm.
  { rewrite (getNowPlaying_hit _ _ _ _ Hm). discriminate. }
  intros H. split; [reflexivity|].
  destruct (fetchNowPlayingFromSpotify e s) as [[r|y] s1] eqn:Hl.
  - right. right.
    destruct (Z.eq_dec (status r) 204) as [H204|H204].
    + exfalso. rewrite (getNowPlaying_204 _ _ _ _ _ Hm Hl H204) in H.
      destruct (nothing_playing_outcomes _ _ _ _ H)
        as [(T & _ & Ho & _)|[(Ho & _)|
            (rr & rp & first & rest & a & more & _ & _ & _ & _ & _ & Ho & _)]];
        discriminate Ho.
    + destruct (Z_gt_le_dec (status r) 400) as [H400|H400].
      * exfalso.
        rewrite (getNowPlaying_error _ _ _ _ _ Hm Hl H400), error_status_run in H.
        destruct (lastPlayedTrack s1); discriminate H.
      * rewrite (getNowPlaying_parse _ _ _ _ _ Hm Hl H204 H400) in H.
        destruct (parse_song_throws _ _ _ _ _ H) as (-> & Hbad & Hkind).
        exists r. auto.
  - rewrite (getNowPlaying_live_throws _ _ _ _ _ Hm Hl) in H.
    injection H as <- <-.
    unfold fetchNowPlayingFromSpotify in Hl.
    destruct (token_then_fetch_run _ _ _ _ _ _ Hl)
      as [(z & s0 & Ht & [= <-] & ->)|(tok & s0 & Ht & _ & _ & Hout)].
    + left. destruct (getAccessToken_throws _ _ _ _ Ht) as (Hv & Hc & Ho).
      auto.
    + right. left. exists tok, s0. split; [exact Ht|].
      revert Hl. cbn -[getAccessToken fetch]. rewrite Ht. unfold fetch. cbn.
      destruct (live e); cbn; [|discriminate].
      intros [= <- _]. auto.
Qed.

(** X13: [GET] answers 200 with the value of the resolver or 500 with an
    error body, always with the CORS headers.  It answers 500 only when the
    cache did not answer and one of three things happened: the first
    [getAccessToken] found no valid token and its exchange failed on the
    network, or answered with a body that is not JSON or is [null] (and
    that exchange is the only request made); or the token was obtained and
    the currently-playing request failed on the network; or the live fetch
    returned a response, with a status other than 204 and not above 400,
    whose body does not hold a track with at least one artist.  A 500
    answer has changed neither [nowPlayingCache] nor [lastPlayedTrack]. *)
Theorem GET_answers_500_only_on_live_failures e query s :
  route_headers (fst (GET e query s)) = corsHeaders /\
  (route_status (fst (GET e query s)) = 200 \/
   route_status (fst (GET e query s)) = 500) /\
  (route_status (fst (GET e query s)) = 500 ->
   exists x,
     route_body (fst (GET e query s)) = ErrorBody x /\
     cache_hit (query_force query) e (nowPlayingCache s) = None /\
     nowPlayingCache (snd (GET e query s)) = nowPlayingCache s /\
     lastPlayedTrack (snd (GET e query s)) = lastPlayedTrack s /\
     ((token_valid (tokenCache s) (now_check (token_for_live e)) = false /\
       outbound (snd (GET e query s)) = PostToken :: outbound s /\
       ((exchange (token_for_live e) = NetworkFailure /\ x = FetchFailed) \/
        (exists r, exchange (token_for_live e) = Responded r /\
                   body r = None /\
                   exchange_null (token_for_live e) = false /\
                   x = SyntaxError) \/
        (exists r, exchange (token_for_live e) = Responded r /\
                   body r = None /\
                   exchange_null (token_for_live e) = true /\
                   x = TypeError))) \/
      (exists tok s1,
         getAccessToken (token_for_live e) s = (Ok tok, s1) /\
         live e = NetworkFailure /\ x = FetchFailed /\
         outbound (snd (GET e query s)) = GetCurrentlyPlaying tok :: outbound s1) \/
      (exists r,
         fetchNowPlayingFromSpotify e s = (Ok r, snd (GET e query s)) /\
         status r <> 204 /\ status r <= 400 /\
         ~ (exists song it a rest,
              body r = Some song /\ item song = Some it /\
              artists it = a :: rest) /\
         ((body r = None /\ x = SyntaxError) \/
          (exists song, body r = Some song /\ x = TypeError))))).
Proof.
  rewrite GET_run.
  destruct (getNowPlaying e (Some {| forceRefresh := Some (query_force query) |}) s)
    as [[v|x] s'] eqn:H; cbn [fst snd route_headers route_status route_body].
  - split; [reflexivity|]. split; [now left|]. intros H5. discriminate H5.
  - split; [reflexivity|]. split; [now right|]. intros _.
    exists x. split; [reflexivity|].
    destruct (getNowPlaying_throw_causes _ _ _ _ _ H) as [Hm Hcause].
    split; [exact Hm|].
    destruct (getNowPlaying_outcomes _ _ _ _ _ H)
      as [(v & _ & Ho & _)|(_ & [(y & _ & Hs)|[(T & _ & Ho & _)|[(Ho & _)|(p & _ & Ho & _)]]])];
      try discriminate Ho.
    destruct Hs as [Hc Ht]. split; [exact Hc|]. split; [exact Ht|].
    exact Hcause.
Qed.

Lemma GET_answers_500_only_on_live_failures_witness :
  route_status (fst (GET (env_at t0 live_without_artist recent_none) [] initial))
  = 500 /\
  route_body (fst (GET (env_at t0 live_without_artist recent_none) [] initial))
  = ErrorBody TypeError /\
  nowPlayingCache (snd (GET (env_at t0 live_without_artist recent_none) []
                          initial))
  = nowPlayingCache initial.
Proof.
  assert (H5 : route_status
                 (fst (GET (env_at t0 live_without_artist recent_none) []
                         initial)) = 500) by reflexivity.
  destruct (GET_answers_500_only_on_live_failures
              (env_at t0 live_without_artist recent_none) [] initial)
    as (_ & _ & Hfail).
  destruct (Hfail H5) as (x & _ & _ & Hc & _).
  split; [exact H5|]. split; [reflexivity|exact Hc].
Defined.

(** X14: once the live fetch has answered 204 or a status above 400,
    nothing that happens afterwards reaches the caller as an error: whatever
    the second token exchange and the recently-played request do (network
    failure, error status, malformed body, track without artist), [GET]
    answers 200 with a track or with [false]. *)
Theorem fallback_failures_never_surface e query s r s1 :
  fetchNowPlayingFromSpotify e s = (Ok r, s1) ->
  status r = 204 \/ status r > 400 ->
  route_status (fst (GET e query s)) = 200 /\
  exists v, route_body (fst (GET e query s)) = DataBody v.
Proof.
  intros Hl Hs. rewrite GET_run.
  destruct (getNowPlaying e (Some {| forceRefresh := Some (query_force query) |}) s)
    as [[v|x] s'] eqn:H; cbn; [eauto|].
  exfalso.
  pose proof (fetchNowPlayingFromSpotify_ok_inv _ _ _ _ Hl) as Hlive.
  destruct (cache_hit
              (force_of (Some {| forceRefresh := Some (query_force query) |}))
              e (nowPlayingCache s)) as [v|] eqn:Hm.
  { rewrite (getNowPlaying_hit _ _ _ _ Hm) in H. discriminate H. }
  destruct Hs as [H204|H400].
  - rewrite (getNowPlaying_204 _ _ _ _ _ Hm Hl H204) in H.
    destruct (nothing_playing_outcomes _ _ _ _ H)
      as [(T & _ & Ho & _)|[(Ho & _)|
          (rr & rp & first & rest & a & more & _ & _ & _ & _ & _ & Ho & _)]];
      discriminate Ho.
  - rewrite (getNowPlaying_error _ _ _ _ _ Hm Hl H400), error_status_run in H.
    destruct (lastPlayedTrack s1); discriminate H.
Qed.

Lemma fallback_failures_never_surface_witness :
  fetchNowPlayingFromSpotify (env_at t0 live_nothing NetworkFailure) initial
  = (Ok {| status := 204; body := None |},
     snd (fetchNowPlayingFromSpotify (env_at t0 live_nothing NetworkFailure)
            initial)) /\
  route_status (fst (GET (env_at t0 live_nothing NetworkFailure) [] initial))
  = 200 /\
  exists v,
    route_body (fst (GET (env_at t0 live_nothing NetworkFailure) [] initial))
    = DataBody v.
Proof.
  split; [reflexivity|].
  apply (fallback_failures_never_surface
           (env_at t0 live_nothing NetworkFailure) [] initial
           {| status := 204; body := None |}
           (snd (fetchNowPlayingFromSpotify
                   (env_at t0 live_nothing NetworkFailure) initial))
           eq_refl (or_introl eq_refl)).
Defined.

Lemma is_true_text_spec v : is_true_text v = true <-> v = Some "true"%string.
Proof.
  unfold is_true_text. destruct v as [t|].
  - rewrite String.eqb_eq. split; [now intros ->|now intros [= ->]].
  - split; discriminate.
Qed.

(** X15: [GET] is answered without any upstream request exactly when the
    first value of neither [refresh] nor [forceRefresh] in the query string
    is the text [true] and the cache is populated and not expired; any other
    value of these parameters ([1], [TRUE], a later duplicate) does not
    force a refresh. *)
Theorem GET_skips_upstream_iff_unforced_and_fresh e query s :
  outbound (snd (GET e query s)) = outbound s <->
  (searchParams_get "refresh" query <> Some "true"%string /\
   searchParams_get "forceRefresh" query <> Some "true"%string /\
   exists v,
     payload (nowPlayingCache s) = Some v /\
     now_cache_check e < np_expires_at (nowPlayingCache s)).
Proof.
  assert (Hforce : query_force query = false <->
                   searchParams_get "refresh" query <> Some "true"%string /\
                   searchParams_get "forceRefresh" query <> Some "true"%string).
  { unfold query_force. rewrite orb_false_iff.
    rewrite <- !not_true_iff_false, !is_true_text_spec. reflexivity. }
  assert (Hout : outbound (snd (GET e query s)) =
                 outbound (snd (getNowPlaying e
                     (Some {| forceRefresh := Some (query_force query) |}) s))).
  { rewrite GET_run.
    destruct (getNowPlaying e
                (Some {| forceRefresh := Some (query_force query) |}) s)
      as [[v|x] s']; reflexivity. }
  rewrite Hout. split.
  - intros Hsame.
    destruct (cache_hit
                (force_of (Some {| forceRefresh := Some (query_force query) |}))
                e (nowPlayingCache s)) as [v|] eqn:Hm.
    + destruct (cache_hit_inv _ _ _ _ Hm) as (Hf & Hp & Hlt).
      cbn in Hf. apply Hforce in Hf. destruct Hf. eauto.
    + exfalso. exact (miss_goes_upstream _ _ _ Hm Hsame).
  - intros (H1 & H2 & v & Hp & Hlt).
    assert (Hf : query_force query = false) by (apply Hforce; auto).
    rewrite (getNowPlaying_hit e _ s v); [reflexivity|].
    cbn. rewrite Hf. now apply cache_hit_intro.
Qed.

Lemma GET_skips_upstream_iff_unforced_and_fresh_witness :
  outbound (snd (GET (env_at (t0 + 5000) NetworkFailure NetworkFailure)
                   [("refresh", "TRUE"); ("forceRefresh", "1");
                    ("refresh", "true")]%string after_playing))
  = outbound after_playing /\
  outbound (snd (GET (env_at (t0 + 5000) live_playing recent_none)
                   [("refresh", "true")]%string after_playing))
  <> outbound after_playing.
Proof.
  split.
  - apply (proj2 (GET_skips_upstream_iff_unforced_and_fresh
                    (env_at (t0 + 5000) NetworkFailure NetworkFailure)
                    [("refresh", "TRUE"); ("forceRefresh", "1");
                     ("refresh", "true")]%string after_playing)).
    split; [discriminate|]. split; [discriminate|].
    exists (Playing (A_by_B true)). split; reflexivity.
  - intros Hsame.
    apply (proj1 (GET_skips_upstream_iff_unforced_and_fresh
                    (env_at (t0 + 5000) live_playing recent_none)
                    [("refresh", "true")]%string after_playing)) in Hsame.
    destruct Hsame as (Hr & _). apply Hr. reflexivity.
Defined.

(** ** Further properties: the status component *)
Lemma poll_round_run e s u :
  poll_round e s u =
  match getNowPlaying e poll_options s with
  | (Ok (Playing p), s') => (s', {| offline := false; result := p |})
  | (_, s') => (s', {| offline := true; result := result u |})
  end.
Proof.
  unfold poll_round. rewrite GET_run. cbn -[getNowPlaying].
  change (Some {| forceRefresh := Some false |}) with poll_options.
  destruct (getNowPlaying e poll_options s) as [[[|p]|x] s']; reflexivity.
Qed.

(** X16: one polling round, from the resolver to the screen.  When the
    resolver returns a track, the component shows it: the text is
    [title by artist], prefixed with [Paused: ] when [isPlaying] is false,
    and the logo is green exactly when [isPlaying] is true; but with an
    empty title or artist the text is the not-listening message although the
    logo colour still follows [isPlaying].  When the resolver returns
    [false] or throws, the component is offline, keeps its previous result,
    and shows the not-listening message with the grey logo. *)
Theorem what_a_polling_round_shows e s u :
  fst (poll_round e s u) = snd (getNowPlaying e poll_options s) /\
  match fst (getNowPlaying e poll_options s) with
  | Ok (Playing p) =>
      snd (poll_round e s u) = {| offline := false; result := p |} /\
      scrollingText (snd (poll_round e s u)) =
        (if nonempty (title p) && nonempty (artist p)
         then if isPlaying p
              then (title p ++ " by " ++ artist p)%string
              else ("Paused: " ++ title p ++ " by " ++ artist p)%string
         else not_listening) /\
      logo_color (snd (poll_round e s u)) =
        (if isPlaying p then "#25d865" else "#a3a3a3")%string
  | _ =>
      snd (poll_round e s u) = {| offline := true; result := result u |} /\
      scrollingText (snd (poll_round e s u)) = not_listening /\
      logo_color (snd (poll_round e s u)) = "#a3a3a3"%string
  end.
Proof.
  rewrite poll_round_run.
  destruct (getNowPlaying e poll_options s) as [[[|p]|x] s']; cbn;
    repeat split; try reflexivity.
Qed.

Lemma what_a_polling_round_shows_witness :
  scrollingText
    (snd (poll_round (env_at t0 live_paused recent_none) initial blank_ui))
  = "Paused: A by B"%string /\
  logo_color
    (snd (poll_round (env_at t0 live_paused recent_none) initial blank_ui))
  = "#a3a3a3"%string.
Proof.
  destruct (what_a_polling_round_shows
              (env_at t0 live_paused recent_none) initial blank_ui)
    as [_ Hshow].
  cbn in Hshow. destruct Hshow as (_ & Htext & Hcolor).
  split; [exact Htext|exact Hcolor].
Defined.

(** X17: an upstream error status is invisible to the visitor when a
    track was seen before.  If the live fetch answers with a status above
    400 while a last played track with a title and an artist exists, the
    polling round shows that track as paused, with the grey logo, and the
    component is not offline. *)
Theorem error_status_shows_last_track_as_paused e s u r s1 T :
  cache_hit false e (nowPlayingCache s) = None ->
  fetchNowPlayingFromSpotify e s = (Ok r, s1) ->
  status r > 400 ->
  lastPlayedTrack s = Some T ->
  nonempty (title T) = true ->
  nonempty (artist T) = true ->
  offline (snd (poll_round e s u)) = false /\
  scrollingText (snd (poll_round e s u))
  = ("Paused: " ++ title T ++ " by " ++ artist T)%string /\
  logo_color (snd (poll_round e s u)) = "#a3a3a3"%string.
Proof.
  intros Hm Hl Hs HT Ht Ha.
  rewrite poll_round_run.
  rewrite (getNowPlaying_error e poll_options s r s1 Hm Hl Hs), error_status_run.
  destruct (fetchNowPlayingFromSpotify_frame _ _ _ _ Hl) as [_ Hlast].
  rewrite Hlast, HT. unfold scrollingText, logo_color. cbn.
  rewrite Ht, Ha. auto.
Qed.

Lemma error_status_shows_last_track_as_paused_witness :
  cache_hit false (env_at (t0 + 20000) live_server_error recent_none)
    (nowPlayingCache after_playing) = None /\
  lastPlayedTrack after_playing = Some (A_by_B true) /\
  offline (snd (poll_round (env_at (t0 + 20000) live_server_error recent_none)
                  after_playing blank_ui)) = false /\
  scrollingText
    (snd (poll_round (env_at (t0 + 20000) live_server_error recent_none)
            after_playing blank_ui))
  = "Paused: A by B"%string /\
  logo_color
    (snd (poll_round (env_at (t0 + 20000) live_server_error recent_none)
            after_playing blank_ui))
  = "#a3a3a3"%string.
Proof.
  split; [reflexivity|]. split; [reflexivity|].
  apply (error_status_shows_last_track_as_paused
           (env_at (t0 + 20000) live_server_error recent_none)
           after_playing blank_ui
           {| status := 500; body := None |}
           (snd (fetchNowPlayingFromSpotify
                   (env_at (t0 + 20000) live_server_error recent_none)
                   after_playing))
           (A_by_B true));
    reflexivity.
Defined.

(** X18: a network failure of the live fetch is visible to the visitor
    even when a track was seen before.  If the cache does not answer and the
    live fetch fails on the network, the polling round leaves the component
    offline with the not-listening message and the grey logo, whatever the
    last played track is, and the component keeps its previous result. *)
Theorem live_network_failure_shows_offline e s u :
  cache_hit false e (nowPlayingCache s) = None ->
  live e = NetworkFailure ->
  snd (poll_round e s u) = {| offline := true; result := result u |} /\
  scrollingText (snd (poll_round e s u)) = not_listening /\
  logo_color (snd (poll_round e s u)) = "#a3a3a3"%string.
Proof.
  intros Hm Hl. rewrite poll_round_run.
  destruct (fetchNowPlayingFromSpotify_down e s Hl) as (x & s' & Hf).
  rewrite (getNowPlaying_live_throws e poll_options s x s' Hm Hf).
  cbn. auto.
Qed.

Lemma live_network_failure_shows_offline_witness :
  cache_hit false (env_at (t0 + 20000) NetworkFailure recent_one)
    (nowPlayingCache after_playing) = None /\
  live (env_at (t0 + 20000) NetworkFailure recent_one) = NetworkFailure /\
  lastPlayedTrack after_playing = Some (A_by_B true) /\
  scrollingText
    (snd (poll_round (env_at (t0 + 20000) NetworkFailure recent_one)
            after_playing (initial_ui (Playing (A_by_B true)))))
  = not_listening.
Proof.
  split; [reflexivity|]. split; [reflexivity|]. split; [reflexivity|].
  apply (live_network_failure_shows_offline
           (env_at (t0 + 20000) NetworkFailure recent_one) after_playing
           (initial_ui (Playing (A_by_B true)))); reflexivity.
Defined.

(** X19: the marquee measurement.  With both refs attached, the text
    scrolls exactly when it is wider than its container; it is then shifted
    left by the overflow plus 15 pixels, so that its right end stops 15
    pixels inside the container and the shift is at least 16 pixels;
    otherwise the shift is 0.  With a ref missing nothing changes. *)
Theorem marquee_shift textWidth containerWidth m :
  (shouldScroll (updateScrollBehavior (Some textWidth) (Some containerWidth) m)
   = true <-> containerWidth < textWidth) /\
  (containerWidth < textWidth ->
   textWidth
   + translateX (updateScrollBehavior (Some textWidth) (Some containerWidth) m)
   = containerWidth - 15 /\
   translateX (updateScrollBehavior (Some textWidth) (Some containerWidth) m)
   <= -16) /\
  (textWidth <= containerWidth ->
   translateX (updateScrollBehavior (Some textWidth) (Some containerWidth) m)
   = 0) /\
  updateScrollBehavior None (Some containerWidth) m = m /\
  updateScrollBehavior (Some textWidth) None m = m.
Proof.
  cbn. destruct (Z.gtb_spec textWidth containerWidth) as [Hgt|Hle].
  - repeat split; intros; try reflexivity; lia.
  - repeat split; intros; try reflexivity; try lia; discriminate.
Qed.

Lemma marquee_shift_witness :
  200 < 260 /\
  260 + translateX (updateScrollBehavior (Some 260) (Some 200)
                      {| shouldScroll := false; translateX := 0 |})
  = 200 - 15 /\
  translateX (updateScrollBehavior (Some 260) (Some 200)
                {| shouldScroll := false; translateX := 0 |}) <= -16.
Proof.
  assert (H : 200 < 260) by reflexivity.
  destruct (marquee_shift 260 200 {| shouldScroll := false; translateX := 0 |})
    as (_ & Hover & _).
  split; [exact H|]. exact (Hover H).
Defined.

(** ** The token across resolutions *)

Lemma token_then_fetch_valid {B} te (rq : option string -> Request)
    (answer : FetchResult B) s o s' tok exp :
  tokenCache s = {| access_token := Some tok; expires_at := Some exp |} ->
  tok <> EmptyString ->
  0 <= now_check te < exp ->
  (access <- getAccessToken te ;; fetch (rq access) answer) s = (o, s') ->
  tokenCache s' = tokenCache s /\
  outbound s' = rq (Some tok) :: outbound s.
Proof.
  intros Htc Hne Hnow.
  assert (Hv : token_valid (tokenCache s) (now_check te) = true).
  { apply (token_valid_intro _ _ tok exp); rewrite ?Htc; auto; cbn; lia. }
  cbn -[getAccessToken fetch]. rewrite (getAccessToken_cached _ _ Hv), Htc.
  unfold fetch. cbn. destruct answer; cbn; intros [= <- <-]; cbn; auto.
Qed.

Lemma token_then_fetch_fresh {B} te (rq : option string -> Request)
    (answer : FetchResult B) s o s' r d :
  token_valid (tokenCache s) (now_check te) = false ->
  exchange te = Responded r -> body r = Some d ->
  (access <- getAccessToken te ;; fetch (rq access) answer) s = (o, s') ->
  tokenCache s' =
    {| access_token := data_access_token d;
       expires_at := token_expiry (now_store te) (data_expires_in d) |} /\
  outbound s' = rq (data_access_token d) :: PostToken :: outbound s.
Proof.
  intros Hv He Hb.
  cbn -[getAccessToken fetch]. rewrite (getAccessToken_exchanged _ _ _ _ Hv He Hb).
  unfold fetch. cbn. destruct answer; cbn; intros [= <- <-]; cbn; auto.
Qed.

(** A resolution that finds a valid token at both of its token checks
    issues no exchange and sends that token with its player requests. *)
Lemma resolution_with_valid_token e options s tok exp :
  tokenCache s = {| access_token := Some tok; expires_at := Some exp |} ->
  tok <> EmptyString ->
  0 <= now_check (token_for_live e) < exp ->
  0 <= now_check (token_for_recent e) < exp ->
  exists l,
    outbound (snd (getNowPlaying e options s)) = l ++ outbound s /\
    filter is_token_request l = [] /\
    tokenCache (snd (getNowPlaying e options s)) = tokenCache s /\
    (forall b,
       In (GetCurrentlyPlaying b) l \/ In (GetRecentlyPlayed b) l ->
       b = Some tok).
Proof.
  intros Htc Hne H1 H2.
  destruct (getNowPlaying e options s) as [o s'] eqn:H. cbn [snd].
  destruct (getNowPlaying_upstream _ _ _ _ _ H)
    as [(_ & ->)|(_ & o1 & s1 & Hl & Hrest)].
  { exists []. cbn. repeat split; auto. intros b [[]|[]]. }
  destruct (token_then_fetch_valid _ _ _ _ _ _ _ _ Htc Hne H1 Hl)
    as [Htc1 Hout1].
  destruct Hrest as [(Hout & Htcs)|(r & o2 & s2 & _ & _ & Hr & Hout & Htcs)].
  - exists [GetCurrentlyPlaying (Some tok)].
    rewrite Hout, Hout1, Htcs, Htc1. cbn. repeat split; auto.
    intros b [[Hb|[]]|[Hb|[]]]; congruence.
  - assert (Htc1' : tokenCache s1
                    = {| access_token := Some tok; expires_at := Some exp |})
      by congruence.
    destruct (token_then_fetch_valid _ _ _ _ _ _ _ _ Htc1' Hne H2 Hr)
      as [Htc2 Hout2].
    exists [GetRecentlyPlayed (Some tok); GetCurrentlyPlaying (Some tok)].
    rewrite Hout, Hout2, Hout1, Htcs, Htc2, Htc1. cbn. repeat split; auto.
    intros b [[Hb|[Hb|[]]]|[Hb|[Hb|[]]]]; congruence.
Qed.

(** A resolution that goes upstream without a valid token and whose
    exchange succeeds issues exactly that exchange, as long as its second
    token check falls before the new expiry. *)
Lemma first_resolution_exchanges_once e options s r tok n :
  token_valid (tokenCache s) (now_check (token_for_live e)) = false ->
  cache_hit (force_of options) e (nowPlayingCache s) = None ->
  exchange (token_for_live e) = Responded r ->
  body r = Some {| data_access_token := Some tok; data_expires_in := Some n |} ->
  tok <> EmptyString ->
  0 <= now_check (token_for_recent e)
    < now_store (token_for_live e) + n * 1000 - 60000 ->
  exists l,
    outbound (snd (getNowPlaying e options s)) = l ++ outbound s /\
    filter is_token_request l = [PostToken] /\
    existsb is_live_request l = true /\
    tokenCache (snd (getNowPlaying e options s))
    = {| access_token := Some tok;
         expires_at := Some (now_store (token_for_live e) + n * 1000 - 60000) |} /\
    (forall b,
       In (GetCurrentlyPlaying b) l \/ In (GetRecentlyPlayed b) l ->
       b = Some tok).
Proof.
  intros Hv Hm He Hb Hne H2.
  destruct (getNowPlaying e options s) as [o s'] eqn:H. cbn [snd].
  destruct (getNowPlaying_upstream _ _ _ _ _ H)
    as [(Hhit & _)|(_ & o1 & s1 & Hl & Hrest)]; [congruence|].
  destruct (token_then_fetch_fresh _ _ _ _ _ _ _ _ Hv He Hb Hl)
    as [Htc1 Hout1].
  cbn in Htc1, Hout1.
  destruct Hrest as [(Hout & Htcs)|(r1 & o2 & s2 & _ & _ & Hr & Hout & Htcs)].
  - exists [GetCurrentlyPlaying (Some tok); PostToken].
    rewrite Hout, Hout1, Htcs, Htc1. cbn. repeat split; auto.
    intros b [[Hc|[Hc|[]]]|[Hc|[Hc|[]]]]; congruence.
  - destruct (token_then_fetch_valid _ _ _ _ _ _ _ _ Htc1 Hne H2 Hr)
      as [Htc2 Hout2].
    exists [GetRecentlyPlayed (Some tok); GetCurrentlyPlaying (Some tok);
            PostToken].
    rewrite Hout, Hout2, Hout1, Htcs, Htc2, Htc1. cbn. repeat split; auto.
    intros b [[Hc|[Hc|[Hc|[]]]]|[Hc|[Hc|[Hc|[]]]]]; congruence.
Qed.

(** C5: [getAccessToken] returns a cached token whose expiry is still ahead
    without any request (the clock reads a non-negative time); otherwise it
    performs the refresh exchange, and when that succeeds the cache holds the
    new token with [expires_at = now + expires_in * 1000 - 60000]; so a
    second call made before that expiry performs no further exchange, and
    the two calls issue exactly one.  The same holds of two resolutions: when
    the first call of [getNowPlaying] goes upstream without a valid token and
    its exchange succeeds, and the token is looked up again only before its
    expiry (by the recently-played fetch of that call and by the fetches of
    a second call), the two calls together issue exactly one token exchange,
    at least one currently-playing request, and every player request
    carries the token of that exchange, which the token cache still holds
    at the end. *)
Theorem token_is_reused_until_expiry :
  (forall te s tok exp,
     access_token (tokenCache s) = Some tok -> tok <> EmptyString ->
     expires_at (tokenCache s) = Some exp ->
     0 <= now_check te -> now_check te < exp ->
     getAccessToken te s = (Ok (Some tok), s)) /\
  (forall te s r tok n,
     ~ (exists tok' exp,
          access_token (tokenCache s) = Some tok' /\ tok' <> EmptyString /\
          expires_at (tokenCache s) = Some exp /\ now_check te < exp) ->
     exchange te = Responded r ->
     body r = Some {| data_access_token := Some tok;
                      data_expires_in := Some n |} ->
     getAccessToken te s =
       (Ok (Some tok),
        {| tokenCache :=
             {| access_token := Some tok;
                expires_at := Some (now_store te + n * 1000 - 60000) |};
           nowPlayingCache := nowPlayingCache s;
           lastPlayedTrack := lastPlayedTrack s;
           outbound := PostToken :: outbound s |})) /\
  (forall te1 te2 s r tok n,
     ~ (exists tok' exp,
          access_token (tokenCache s) = Some tok' /\ tok' <> EmptyString /\
          expires_at (tokenCache s) = Some exp /\ now_check te1 < exp) ->
     exchange te1 = Responded r ->
     body r = Some {| data_access_token := Some tok;
                      data_expires_in := Some n |} ->
     tok <> EmptyString ->
     0 <= now_check te2 ->
     now_check te2 < now_store te1 + n * 1000 - 60000 ->
     exists s1,
       getAccessToken te1 s = (Ok (Some tok), s1) /\
       getAccessToken te2 s1 = (Ok (Some tok), s1) /\
       outbound s1 = PostToken :: outbound s) /\
  (forall e1 options1 e2 options2 s r tok n,
     ~ (exists tok' exp,
          access_token (tokenCache s) = Some tok' /\ tok' <> EmptyString /\
          expires_at (tokenCache s) = Some exp /\
          now_check (token_for_live e1) < exp) ->
     cache_hit (force_of options1) e1 (nowPlayingCache s) = None ->
     exchange (token_for_live e1) = Responded r ->
     body r = Some {| data_access_token := Some tok;
                      data_expires_in := Some n |} ->
     tok <> EmptyString ->
     0 <= now_check (token_for_recent e1)
       < now_store (token_for_live e1) + n * 1000 - 60000 ->
     0 <= now_check (token_for_live e2)
       < now_store (token_for_live e1) + n * 1000 - 60000 ->
     0 <= now_check (token_for_recent e2)
       < now_store (token_for_live e1) + n * 1000 - 60000 ->
     exists l,
       outbound (snd (getNowPlaying e2 options2
                        (snd (getNowPlaying e1 options1 s))))
       = l ++ outbound s /\
       filter is_token_request l = [PostToken] /\
       existsb is_live_request l = true /\
       tokenCache (snd (getNowPlaying e2 options2
                          (snd (getNowPlaying e1 options1 s))))
       = {| access_token := Some tok;
            expires_at :=
              Some (now_store (token_for_live e1) + n * 1000 - 60000) |} /\
       (forall b,
          In (GetCurrentlyPlaying b) l \/ In (GetRecentlyPlayed b) l ->
          b = Some tok)).
Proof.
  assert (Hhit : forall te s tok exp,
            access_token (tokenCache s) = Some tok -> tok <> EmptyString ->
            expires_at (tokenCache s) = Some exp ->
            0 <= now_check te -> now_check te < exp ->
            getAccessToken te s = (Ok (Some tok), s)).
  { intros te s tok exp Ha Hne He H0 Hlt.
    rewrite getAccessToken_cached, Ha; [reflexivity|].
    apply (token_valid_intro _ _ tok exp); auto. lia. }
  assert (Hmiss : forall te s r tok n,
            ~ (exists tok' exp,
                 access_token (tokenCache s) = Some tok' /\
                 tok' <> EmptyString /\
                 expires_at (tokenCache s) = Some exp /\ now_check te < exp) ->
            exchange te = Responded r ->
            body r = Some {| data_access_token := Some tok;
                             data_expires_in := Some n |} ->
            getAccessToken te s =
              (Ok (Some tok),
               {| tokenCache :=
                    {| access_token := Some tok;
                       expires_at := Some (now_store te + n * 1000 - 60000) |};
                  nowPlayingCache := nowPlayingCache s;
                  lastPlayedTrack := lastPlayedTrack s;
                  outbound := PostToken :: outbound s |})).
  { intros te s r tok n Hno He Hb.
    assert (Hv : token_valid (tokenCache s) (now_check te) = false).
    { destruct (token_valid (tokenCache s) (now_check te)) eqn:Hv;
        [|reflexivity].
      exfalso. apply Hno.
      destruct (token_valid_true _ _ Hv)
        as (tok' & exp & H1 & H2 & H3 & _ & H5).
      exists tok', exp. auto. }
    rewrite (getAccessToken_exchanged te s r _ Hv He Hb). reflexivity. }
  split; [exact Hhit|]. split; [exact Hmiss|]. split.
  { intros te1 te2 s r tok n Hno He Hb Hne H0 Hlt.
    eexists. split; [exact (Hmiss te1 s r tok n Hno He Hb)|]. split.
    - apply (Hhit te2 _ tok (now_store te1 + n * 1000 - 60000));
        auto; reflexivity.
    - reflexivity. }
  intros e1 options1 e2 options2 s r tok n Hno Hm He Hb Hne H1 H2 H3.
  assert (Hv : token_valid (tokenCache s) (now_check (token_for_live e1)) = false).
  { destruct (token_valid (tokenCache s) (now_check (token_for_live e1))) eqn:Hv;
      [|reflexivity].
    exfalso. apply Hno.
    destruct (token_valid_true _ _ Hv) as (tok' & exp & A1 & A2 & A3 & _ & A5).
    exists tok', exp. auto. }
  destruct (first_resolution_exchanges_once e1 options1 s r tok n
              Hv Hm He Hb Hne H1) as (l1 & Hout1 & Hf1 & Hlive1 & Htc1 & Hb1).
  destruct (resolution_with_valid_token e2 options2
              (snd (getNowPlaying e1 options1 s)) tok
              (now_store (token_for_live e1) + n * 1000 - 60000)
              Htc1 Hne H2 H3) as (l2 & Hout2 & Hf2 & Htc2 & Hb2).
  exists (l2 ++ l1). split; [|split; [|split; [|split]]].
  - rewrite Hout2, Hout1. apply app_assoc.
  - rewrite filter_app, Hf2, Hf1. reflexivity.
  - rewrite existsb_app, Hlive1. apply orb_true_r.
  - rewrite Htc2. exact Htc1.
  - intros b Hin.
    assert (Hcases : (In (GetCurrentlyPlaying b) l2 \/ In (GetRecentlyPlayed b) l2)
                     \/ (In (GetCurrentlyPlaying b) l1 \/ In (GetRecentlyPlayed b) l1)).
    { destruct Hin as [Hin|Hin]; apply in_app_or in Hin;
        destruct Hin; auto. }
    destruct Hcases as [Hc|Hc]; [exact (Hb2 b Hc)|exact (Hb1 b Hc)].
Qed.

Lemma token_is_reused_until_expiry_witness :
  getAccessToken (token_env_at t0) initial
  = (Ok (Some "BQD"%string),
     {| tokenCache := {| access_token := Some "BQD"%string;
                         expires_at := Some (t0 + 3600 * 1000 - 60000) |};
        nowPlayingCache := nowPlayingCache initial;
        lastPlayedTrack := None;
        outbound := [PostToken] |}) /\
  (exists s1,
     getAccessToken (token_env_at t0) initial = (Ok (Some "BQD"%string), s1) /\
     getAccessToken (token_env_down (t0 + 3000000)) s1
     = (Ok (Some "BQD"%string), s1) /\
     outbound s1 = PostToken :: outbound initial) /\
  (exists l,
     outbound (snd (getNowPlaying (env_at (t0 + 20000) live_nothing recent_one)
                      None
                      (snd (getNowPlaying (env_at t0 live_nothing recent_none)
                              None initial))))
     = l ++ outbound initial /\
     filter is_token_request l = [PostToken] /\
     l = [ GetRecentlyPlayed (Some "BQD"%string);
           GetCurrentlyPlaying (Some "BQD"%string);
           GetRecentlyPlayed (Some "BQD"%string);
           GetCurrentlyPlaying (Some "BQD"%string);
           PostToken ]).
Proof.
  assert (Hno : ~ (exists tok' exp,
                     access_token (tokenCache initial) = Some tok' /\
                     tok' <> EmptyString /\
                     expires_at (tokenCache initial) = Some exp /\
                     now_check (token_env_at t0) < exp)).
  { intros (tok' & exp & Ha & _). discriminate Ha. }
  assert (Hne : "BQD"%string <> EmptyString) by discriminate.
  assert (Hin : forall d, 0 <= d < 3000000 ->
                  0 <= t0 + d < t0 + 3600 * 1000 - 60000).
  { intros d Hd. unfold t0. lia. }
  destruct token_is_reused_until_expiry as (_ & Hmiss & Htwice & Hcalls).
  split; [|split].
  - exact (Hmiss (token_env_at t0) initial _ "BQD"%string 3600 Hno
             eq_refl eq_refl).
  - apply (Htwice (token_env_at t0) (token_env_down (t0 + 3000000))
             initial _ "BQD"%string 3600 Hno eq_refl eq_refl Hne).
    + vm_compute. discriminate.
    + reflexivity.
  - destruct (Hcalls (env_at t0 live_nothing recent_none) None
                (env_at (t0 + 20000) live_nothing recent_one) None
                initial _ "BQD"%string 3600 Hno eq_refl eq_refl eq_refl Hne)
      as (l & Hout & Hone & _).
    + replace (now_check (token_for_recent (env_at t0 live_nothing recent_none)))
        with (t0 + 0) by (cbn; lia).
      apply Hin. lia.
    + apply (Hin 20000). lia.
    + apply (Hin 20000). lia.
    + exists l. split; [exact Hout|]. split; [exact Hone|].
      cbn in Hout. rewrite app_nil_r in Hout. symmetry. exact Hout.
Defined.

(** ** The last played track as the track resolved last *)

(** A call that resolves a track returns it and stores it. *)
Lemma resolves_stores e options s p o s' :
  resolves e options s p ->
  getNowPlaying e options s = (o, s') ->
  o = Ok (Playing p) /\ lastPlayedTrack s' = Some p.
Proof.
  intros (Hm & r1 & s1 & Hl & Hres) Hrun.
  pose proof (fetchNowPlayingFromSpotify_ok_inv _ _ _ _ Hl) as Hlive.
  destruct Hres as [Hlt|(Hrt & rr & s2 & Hr)].
  - destruct Hlt as (r & song & it & a & rest & H1 & H2 & H3 & H4 & H5 & H6 & ->).
    assert (r1 = r) by congruence. subst r1.
    rewrite (getNowPlaying_parse _ _ _ _ _ Hm Hl H2 H3) in Hrun.
    rewrite (parse_song_track _ _ _ _ _ _ _ H4 H5 H6) in Hrun.
    injection Hrun as <- <-. split; reflexivity.
  - destruct Hrt
      as (r & rr' & rp & first & rest & a & more & H1 & H2 & H3 & H4 & H5 & H6 & H7 & ->).
    pose proof (fetchRecentlyPlayed_ok_inv _ _ _ _ Hr) as Hrec.
    assert (r1 = r) by congruence. subst r1.
    assert (rr' = rr) by congruence. subst rr'.
    rewrite (getNowPlaying_204 _ _ _ _ _ Hm Hl H2) in Hrun.
    rewrite (nothing_playing_track _ _ _ _ _ _ _ _ _ Hr H4 H5 H6 H7) in Hrun.
    injection Hrun as <- <-. split; reflexivity.
Qed.

(** The 204 branch either stores the first recently played track, or
    finds none and keeps [lastPlayedTrack], returning its stale copy or the
    unavailable value. *)
Lemma nothing_playing_resolution e s o s' :
  nothing_playing e s = (o, s') ->
  (exists rr s2 rp first rest a more,
     fetchRecentlyPlayed e s = (Ok rr, s2) /\
     ok rr = true /\ body rr = Some rp /\
     items rp = Some (first :: rest) /\ artists (track first) = a :: more /\
     o = Ok (Playing {| artist := artist_name a; isPlaying := false;
                        title := name (track first) |}) /\
     lastPlayedTrack s' = Some {| artist := artist_name a; isPlaying := false;
                                  title := name (track first) |}) \/
  ((forall rr s2,
      fetchRecentlyPlayed e s = (Ok rr, s2) ->
      ~ (exists rp first rest a more,
           ok rr = true /\ body rr = Some rp /\
           items rp = Some (first :: rest) /\
           artists (track first) = a :: more)) /\
   lastPlayedTrack s' = lastPlayedTrack s /\
   (o = Ok Unavailable \/
    exists T, lastPlayedTrack s = Some T /\ o = Ok (Playing (stale T)))).
Proof.
  intros H.
  assert (Hkept : lastPlayedTrack s' = lastPlayedTrack s /\
                  (o = Ok Unavailable \/
                   exists T, lastPlayedTrack s = Some T /\
                             o = Ok (Playing (stale T))) \/
                  exists rr rp first rest a more,
                    recent e = Responded rr /\ ok rr = true /\
                    body rr = Some rp /\ items rp = Some (first :: rest) /\
                    artists (track first) = a :: more).
  { destruct (nothing_playing_outcomes _ _ _ _ H)
      as [(T & HT & Ho & _ & Hl)|[(Ho & Hl & _)|
          (rr' & rp' & f' & r' & a' & m' & K0 & K1 & K2 & K3 & K4 & _)]].
    - left. split; [exact Hl|right; eauto].
    - left. split; [exact Hl|now left].
    - right. exists rr', rp', f', r', a', m'. auto. }
  destruct (fetchRecentlyPlayed e s) as [[rr|x] s2] eqn:Hr.
  - pose proof (fetchRecentlyPlayed_ok_inv _ _ _ _ Hr) as Hrec.
    assert (Hbad : ~ (exists rp first rest a more,
                        ok rr = true /\ body rr = Some rp /\
                        items rp = Some (first :: rest) /\
                        artists (track first) = a :: more) ->
                   (forall rr0 s0,
                      (Ok rr, s2) = (Ok rr0, s0) ->
                      ~ (exists rp first rest a more,
                           ok rr0 = true /\ body rr0 = Some rp /\
                           items rp = Some (first :: rest) /\
                           artists (track first) = a :: more)) /\
                   lastPlayedTrack s' = lastPlayedTrack s /\
                   (o = Ok Unavailable \/
                    exists T, lastPlayedTrack s = Some T /\
                              o = Ok (Playing (stale T)))).
    { intros Hno. split; [now intros rr0 s0 [= <- <-]|].
      destruct Hkept as [Hk|(rr' & rp' & f' & r' & a' & m' & K0 & K)];
        [exact Hk|].
      exfalso. apply Hno. assert (rr' = rr) by congruence. subst rr'.
      exists rp', f', r', a', m'. exact K. }
    destruct (ok rr) eqn:Hok.
    2:{ right. apply Hbad. intros (rp & f & r & a & m & K & _). discriminate K. }
    destruct (body rr) as [rp|] eqn:Hb.
    2:{ right. apply Hbad. intros (rp & f & r & a & m & _ & K & _).
        discriminate K. }
    destruct (items rp) as [[|first rest]|] eqn:Hi.
    1,3:(right; apply Hbad; intros (rp' & f & r & a & m & _ & K1 & K2 & _);
         injection K1 as <-; rewrite Hi in K2; discriminate K2).
    destruct (artists (track first)) as [|a more] eqn:Ha.
    { right. apply Hbad. intros (rp' & f & r & a & m & _ & K1 & K2 & K3).
      injection K1 as <-. rewrite Hi in K2. injection K2 as <- <-.
      rewrite Ha in K3. discriminate K3. }
    left. exists rr, s2, rp, first, rest, a, more.
    rewrite (nothing_playing_track _ _ _ _ _ _ _ _ _ Hr Hok Hb Hi Ha) in H.
    injection H as <- <-. repeat split; auto.
  - right. split; [intros rr' s2' Habs; discriminate Habs|].
    rewrite (nothing_playing_throws _ _ _ _ Hr) in H.
    destruct (fetchRecentlyPlayed_frame _ _ _ _ Hr) as [_ Ht].
    destruct (lastPlayedTrack s2) as [T|] eqn:HT; injection H as <- <-.
    + split; [congruence|]. right. exists T. split; [congruence|reflexivity].
    + split; [cbn; congruence|now left].
Qed.

(** One call either resolves a track, returns it and stores it, or
    resolves none and keeps [lastPlayedTrack]; in the second case it is
    answered by the cache, throws, or returns the unavailable value or the
    stale copy of the last played track. *)
Lemma getNowPlaying_resolution e options s o s' :
  getNowPlaying e options s = (o, s') ->
  (exists p,
     resolves e options s p /\ o = Ok (Playing p) /\
     lastPlayedTrack s' = Some p) \/
  ((forall p, ~ resolves e options s p) /\
   lastPlayedTrack s' = lastPlayedTrack s /\
   (cache_hit (force_of options) e (nowPlayingCache s) <> None \/
    (exists x, o = Throw x) \/
    o = Ok Unavailable \/
    exists T, lastPlayedTrack s = Some T /\ o = Ok (Playing (stale T)))).
Proof.
  intros H.
  destruct (cache_hit (force_of options) e (nowPlayingCache s)) as [v|] eqn:Hm.
  { right. rewrite (getNowPlaying_hit _ _ _ _ Hm) in H. injection H as <- <-.
    split; [intros p (Habs & _); congruence|].
    split; [reflexivity|left; discriminate]. }
  destruct (fetchNowPlayingFromSpotify e s) as [[r|x] s1] eqn:Hl;
    destruct (fetchNowPlayingFromSpotify_frame _ _ _ _ Hl) as [_ Ht].
  2:{ right. rewrite (getNowPlaying_live_throws _ _ _ _ _ Hm Hl) in H.
      injection H as <- <-.
      split; [intros p (_ & r' & s1' & Habs & _); congruence|].
      split; [exact Ht|right; left; eauto]. }
  pose proof (fetchNowPlayingFromSpotify_ok_inv _ _ _ _ Hl) as Hlive.
  destruct (Z.eq_dec (status r) 204) as [H204|H204].
  - rewrite (getNowPlaying_204 _ _ _ _ _ Hm Hl H204) in H.
    destruct (nothing_playing_resolution _ _ _ _ H)
      as [(rr & s2 & rp & first & rest & a & more & Hr & K1 & K2 & K3 & K4 & Ho & Hs)
         |(Hnone & Hkeep & Hout)].
    + left. eexists. split; [|split; [exact Ho|exact Hs]].
      split; [exact Hm|]. exists r, s1. split; [exact Hl|]. right.
      pose proof (fetchRecentlyPlayed_ok_inv _ _ _ _ Hr) as Hrec.
      split; [|eauto].
      exists r, rr, rp, first, rest, a, more. repeat split; auto.
    + right. split; [|split; [congruence|]].
      * intros p (_ & r' & s1' & Hl' & [Hlt|(Hrt & rr & s2 & Hr)]).
        -- destruct Hlt as (r2 & song & it & a & rest & L1 & L2 & _).
           assert (r2 = r) by congruence. subst r2. contradiction.
        -- assert (s1' = s1) by congruence. subst s1'.
           destruct Hrt
             as (r2 & rr2 & rp & first & rest & a & more & _ & _ & R3 & R4 & R5 & R6 & R7 & _).
           pose proof (fetchRecentlyPlayed_ok_inv _ _ _ _ Hr) as Hrec.
           assert (rr2 = rr) by congruence. subst rr2.
           apply (Hnone rr s2 Hr). exists rp, first, rest, a, more. auto.
      * destruct Hout as [Ho|(T & HT & Ho)]; [auto|].
        right. right. right. exists T. split; [congruence|exact Ho].
  - assert (Hnorecent : forall p, ~ recent_track e p).
    { intros p (r2 & rr2 & rp & first & rest & a & more & R1 & R2 & _).
      assert (r2 = r) by congruence. subst r2. contradiction. }
    destruct (Z_gt_le_dec (status r) 400) as [H400|H400].
    + right.
      rewrite (getNowPlaying_error _ _ _ _ _ Hm Hl H400), error_status_run in H.
      split; [|split].
      * intros p (_ & r' & s1' & _ & [Hlt|(Hrt & _)]).
        -- destruct Hlt as (r2 & song & it & a & rest & L1 & L2 & L3 & _).
           assert (r2 = r) by congruence. subst r2. lia.
        -- exact (Hnorecent p Hrt).
      * destruct (lastPlayedTrack s1) eqn:HT1; injection H as _ <-; cbn;
          congruence.
      * destruct (lastPlayedTrack s1) as [T|] eqn:HT; injection H as <- _.
        -- right. right. right. exists T. split; [congruence|reflexivity].
        -- right. right. now left.
    + rewrite (getNowPlaying_parse _ _ _ _ _ Hm Hl H204 H400) in H.
      destruct (parse_song_cases e r s1)
        as [(song & it & a & rest & Hb & Hi & Ha)|(x & Hx)].
      * left. rewrite (parse_song_track _ _ _ _ _ _ _ Hb Hi Ha) in H.
        injection H as <- <-. eexists. split; [|split; reflexivity].
        split; [exact Hm|]. exists r, s1. split; [exact Hl|]. left.
        exists r, song, it, a, rest. repeat split; auto.
      * right. rewrite Hx in H. injection H as <- <-.
        split; [|split; [exact Ht|right; left; eauto]].
        intros p (_ & r' & s1' & _ & [Hlt|(Hrt & _)]).
        -- destruct Hlt as (r2 & song & it & a & rest & L1 & L2 & L3 & L4 & L5 & L6 & _).
           assert (r2 = r) by congruence. subst r2.
           rewrite (parse_song_track _ _ _ _ _ _ _ L4 L5 L6) in Hx.
           discriminate Hx.
        -- exact (Hnorecent p Hrt).
Qed.

(** Along any sequence of calls, [lastPlayedTrack] is the track resolved
    last. *)
Lemma last_resolved_is_stored s q :
  last_resolved s q -> lastPlayedTrack s = q.
Proof.
  induction 1 as [|e options s q o s' p Hlast IH Hrun Hres
                  |e options s q o s' Hlast IH Hrun Hnone].
  - reflexivity.
  - exact (proj2 (resolves_stores _ _ _ _ _ _ Hres Hrun)).
  - destruct (getNowPlaying_resolution _ _ _ _ _ Hrun)
      as [(p & Hres & _)|(_ & Hkeep & _)].
    + destruct (Hnone p Hres).
    + congruence.
Qed.

(** C8 (as the code has it): in every reachable state [lastPlayedTrack]
    is the most recent resolved track, stored as it was resolved ([null]
    while no call has resolved one): [isPlaying] is false when it came from
    the recently-played fallback and is the live [is_playing] flag when it
    came from the live branch.  A call changes it exactly when it resolves
    a track from one of these two branches, by storing the track it returns;
    a call that resolves none keeps it, and when such a call goes upstream
    and still returns a track, that track is the stale copy with
    [isPlaying] forced false while the stored track is left as it was; no
    call sets it back to null. *)
Theorem last_played_track_is_last_resolved s :
  reachable s ->
  (exists q, last_resolved s q) /\
  (forall q, last_resolved s q -> lastPlayedTrack s = q) /\
  (forall e options o s',
     getNowPlaying e options s = (o, s') ->
     ((exists p, resolves e options s p) \/
      (forall p, ~ resolves e options s p)) /\
     (forall p,
        resolves e options s p ->
        o = Ok (Playing p) /\ lastPlayedTrack s' = Some p /\
        (recent_track e p -> isPlaying p = false) /\
        (live_track e p ->
         exists r song,
           live e = Responded r /\ body r = Some song /\
           isPlaying p = is_playing song)) /\
     ((forall p, ~ resolves e options s p) ->
      lastPlayedTrack s' = lastPlayedTrack s /\
      forall v,
        o = Ok (Playing v) ->
        cache_hit (force_of options) e (nowPlayingCache s) = None ->
        exists T,
          lastPlayedTrack s = Some T /\
          v = {| artist := artist T; isPlaying := false; title := title T |} /\
          lastPlayedTrack s' = Some T) /\
     (lastPlayedTrack s <> None -> lastPlayedTrack s' <> None)).
Proof.
  intros Hreach. split; [|split; [exact (last_resolved_is_stored s)|]].
  - induction Hreach as [|e options s o s' Hreach [q IH] Hrun].
    + exists None. constructor.
    + destruct (getNowPlaying_resolution _ _ _ _ _ Hrun)
        as [(p & Hres & _)|(Hnone & _)].
      * exists (Some p). exact (last_resolved_new IH Hrun Hres).
      * exists q. exact (last_resolved_kept IH Hrun Hnone).
  - intros e options o s' Hrun.
    pose proof (getNowPlaying_resolution _ _ _ _ _ Hrun) as Hstep.
    split; [|split; [|split]].
    + destruct Hstep as [(p & Hres & _)|(Hnone & _)]; eauto.
    + intros p Hres.
      destruct (resolves_stores _ _ _ _ _ _ Hres Hrun) as [Ho Hs].
      split; [exact Ho|]. split; [exact Hs|]. split.
      * intros (r & rr & rp & first & rest & a & more & Hq).
        destruct Hq as (_ & _ & _ & _ & _ & _ & _ & ->). reflexivity.
      * intros (r & song & it & a & rest & H1 & _ & _ & H4 & _ & _ & ->).
        exists r, song. auto.
    + intros Hnone.
      destruct Hstep as [(p & Hres & _)|(_ & Hkeep & Hout)];
        [destruct (Hnone p Hres)|].
      split; [exact Hkeep|]. intros v Ho Hm.
      destruct Hout as [Hhit|[(x & Hx)|[Hu|(T & HT & HoT)]]].
      * contradiction.
      * congruence.
      * congruence.
      * exists T. split; [exact HT|]. split; [|congruence].
        rewrite Ho in HoT. now injection HoT as ->.
    + intros Hsome.
      destruct Hstep as [(p & _ & _ & Hp)|(_ & Hkeep & _)].
      * rewrite Hp. discriminate.
      * now rewrite Hkeep.
Qed.

Lemma last_played_track_is_last_resolved_witness :
  reachable after_playing /\
  last_resolved after_playing (Some (A_by_B true)) /\
  lastPlayedTrack after_playing = Some (A_by_B true) /\
  fst (getNowPlaying (env_at (t0 + 20000) live_server_error recent_none) None
         after_playing) = Ok (Playing (A_by_B false)) /\
  lastPlayedTrack
    (snd (getNowPlaying (env_at (t0 + 20000) live_server_error recent_none)
            None after_playing)) = Some (A_by_B true).
Proof.
  assert (Hrun : getNowPlaying (env_at t0 live_playing recent_none) None initial
                 = (Ok (Playing (A_by_B true)), after_playing))
    by reflexivity.
  assert (Hr : reachable after_playing).
  { exact (@reachable_call (env_at t0 live_playing recent_none) None initial
             (Ok (Playing (A_by_B true))) after_playing reachable_initial
             Hrun). }
  assert (Hres : resolves (env_at t0 live_playing recent_none) None initial
                   (A_by_B true)).
  { split; [reflexivity|].
    exists {| status := 200;
              body := Some {| item := Some track_A_by_B; is_playing := true |} |},
           (snd (fetchNowPlayingFromSpotify
                   (env_at t0 live_playing recent_none) initial)).
    split; [reflexivity|]. left.
    exists {| status := 200;
              body := Some {| item := Some track_A_by_B; is_playing := true |} |},
           {| item := Some track_A_by_B; is_playing := true |},
           track_A_by_B, {| artist_name := "B" |}, [].
    cbn. repeat split; try reflexivity; try discriminate. }
  assert (Hlast : last_resolved after_playing (Some (A_by_B true))).
  { exact (last_resolved_new last_resolved_initial Hrun Hres). }
  destruct (last_played_track_is_last_resolved after_playing Hr)
    as (_ & Hstored & Hstep).
  split; [exact Hr|]. split; [exact Hlast|].
  split; [exact (Hstored _ Hlast)|].
  split; [reflexivity|].
  destruct (Hstep (env_at (t0 + 20000) live_server_error recent_none) None
              (fst (getNowPlaying
                      (env_at (t0 + 20000) live_server_error recent_none)
                      None after_playing))
              (snd (getNowPlaying
                      (env_at (t0 + 20000) live_server_error recent_none)
                      None after_playing))
              eq_refl) as (Hdec & _ & Hkeep & _).
  destruct Hdec as [(p & Hp)|Hnone].
  - exfalso. destruct Hp as (_ & r & s1 & Hl & [Hlt|(Hrt & _)]).
    + destruct Hlt as (r2 & song & it & a & rest & L1 & L2 & L3 & _).
      injection L1 as <-. cbn in L3. lia.
    + destruct Hrt as (r2 & rr & rp & first & rest & a & more & R1 & R2 & _).
      injection R1 as <-. discriminate R2.
  - destruct (Hkeep Hnone) as [Hsame _]. rewrite Hsame. reflexivity.
Defined.
